(** * py-scrape-quotes: a shallow embedding of [app/parse.py]

    The script crawls the listing pages of a quotes site, resolves each
    author's profile page through a name-keyed cache and dumps two CSV
    tables.  The embedding keeps the functions and names of the source.

    What the program takes from outside is gathered in [World]: the
    answers of the network, [urllib.parse.urljoin], and the file system's
    path resolution and permissions.  What it mutates is gathered in
    [State]: the module-level [AUTHOR_CACHE], the requests sent, the records
    logged and the files, among them the log file [parser.log] that the
    handler installed by the script appends every record to.

    Outside the model: the records that the libraries log of their own
    accord through the same handlers (bs4 while it decodes a body), and the
    references on which [urljoin] raises instead of returning. *)

From Stdlib Require Import Ascii String ZArith.
From stdpp Require Import base option list strings gmap pretty.

Set Warnings "-register-all".

Open Scope list_scope.
Open Scope Z_scope.

(** ** Parsed HTML, as BeautifulSoup presents it *)

(** The classes of string other than the plain [NavigableString].
    [Comment] stands for the comment-like ones (comments, declarations,
    doctypes, processing instructions); the others are the classes the HTML
    builders give to the strings inside [script], [style], [template], [rt]
    and [rp]. *)
Inductive StringClass :=
| Comment | CData | Script | Stylesheet | TemplateString
| RubyTextString | RubyParenthesisString.

(** A node is a string leaf or a tag.  [class_] is the multi-valued [class]
    attribute, [attrs] the other attributes, [contents] the children in
    document order. *)
Inductive Node :=
| NavigableString (s : string)
| Tag (name : string) (class_ : list string) (attrs : list (string * string))
      (contents : list Node)
| OtherString (kind : StringClass) (s : string).

(** [BeautifulSoup(markup, "html.parser")]: the document object, a tag whose
    children are the top-level nodes of the page.  (What bs4 may log while
    it decodes the bytes of a body is outside the model.) *)
Definition BeautifulSoup (markup : list Node) : Node :=
  Tag "[document]" [] [] markup.

(** All nodes strictly below [n], in document (pre-)order. *)
Fixpoint descendants (n : Node) : list Node :=
  match n with
  | NavigableString _ | OtherString _ _ => []
  | Tag _ _ _ cs =>
      (fix below (l : list Node) : list Node :=
         match l with
         | [] => []
         | c :: l' => c :: descendants c ++ below l'
         end) cs
  end.

(** The two selector forms the script uses: [".cls"] and a bare tag name. *)
Definition matches (sel : string) (n : Node) : bool :=
  match n with
  | NavigableString _ | OtherString _ _ => false
  | Tag name cls _ _ =>
      match sel with
      | String "."%char c => bool_decide (c ∈ cls)
      | _ => bool_decide (name = sel)
      end
  end.

(** [soup.select(sel)] and [soup.select_one(sel)]. *)
Definition select (soup : Node) (sel : string) : list Node :=
  filter (λ n, matches sel n = true) (descendants soup).

Definition select_one (soup : Node) (sel : string) : option Node :=
  head (select soup sel).

(** The classes of string that [.text] collects below a tag of the given
    name ([None] is the plain [NavigableString]): plain strings and CDATA,
    except below the tags whose strings have a class of their own. *)
Definition interesting_string_types (name : string)
    (kind : option StringClass) : bool :=
  if bool_decide (name = "script") then
    match kind with Some Script => true | _ => false end
  else if bool_decide (name = "style") then
    match kind with Some Stylesheet => true | _ => false end
  else if bool_decide (name = "template") then
    match kind with Some TemplateString => true | _ => false end
  else if bool_decide (name = "rt") then
    match kind with Some RubyTextString => true | _ => false end
  else if bool_decide (name = "rp") then
    match kind with Some RubyParenthesisString => true | _ => false end
  else
    match kind with None | Some CData => true | _ => false end.

(** The strings of the classes [keep] at and below a node, concatenated in
    document order. *)
Fixpoint strings_of (keep : option StringClass → bool) (n : Node) : string :=
  match n with
  | NavigableString s => if keep None then s else ""
  | OtherString kind s => if keep (Some kind) then s else ""
  | Tag _ _ _ cs =>
      (fix cat (l : list Node) : string :=
         match l with
         | [] => ""
         | c :: l' => strings_of keep c +:+ cat l'
         end) cs
  end.

(** [node.text]: the strings below the node that are of the classes its
    tag collects, so that comments are left out everywhere, and the strings
    of a [script], [style] or [template] when read from outside it. *)
Definition text_of (n : Node) : string :=
  match n with
  | NavigableString s | OtherString _ s => s
  | Tag name _ _ _ => strings_of (interesting_string_types name) n
  end.

(** Lookup in an attribute dictionary. *)
Fixpoint assoc {V : Type} (k : string) (l : list (string * V)) : option V :=
  match l with
  | [] => None
  | (k', v) :: l' => if bool_decide (k' = k) then Some v else assoc k l'
  end.

(** ** Records of the script *)

Record Quote := mkQuote {
  text : string;
  author : string;
  tags : list string;
}.

Record Author := mkAuthor {
  name : string;
  born_date : string;
  born_location : string;
  description : string;
}.

Definition QUOTE_FIELDS : list string := ["text"; "author"; "tags"].
Definition AUTHOR_FIELDS : list string :=
  ["name"; "born_date"; "born_location"; "description"].

Definition BASE_URL : string := "https://quotes.toscrape.com/".

(** ** Python dictionaries: unique keys, insertion order *)

Abbreviation dict V := (list (string * V)).

Definition dict_keys {V} (d : dict V) : list string := d.*1.
Definition dict_values {V} (d : dict V) : list V := d.*2.

(** [k in d] *)
Definition dict_contains {V} (k : string) (d : dict V) : bool :=
  bool_decide (k ∈ dict_keys d).

(** [d[k] = v]: an existing key keeps its position, a new key goes last. *)
Fixpoint dict_setitem {V} (k : string) (v : V) (d : dict V) : dict V :=
  match d with
  | [] => [(k, v)]
  | (k', v') :: d' =>
      if bool_decide (k' = k) then (k', v) :: d'
      else (k', v') :: dict_setitem k v d'
  end.

(** ** CSV rows *)

(** A cell handed to [csv.writer]: a string, or (the [tags] of a quote)
    a list that the writer renders with [str]. *)
Inductive Cell :=
| CStr (s : string)
| CList (l : list string).

Definition Row := list Cell.

Definition astuple_quote (q : Quote) : Row :=
  [CStr (text q); CStr (author q); CList (tags q)].

Definition astuple_author (a : Author) : Row :=
  [CStr (name a); CStr (born_date a); CStr (born_location a);
   CStr (description a)].

(** ** The outside world *)

Record Response := mkResponse {
  status_code : Z;
  content : list Node;          (* the body, as html.parser reads it *)
}.

Record World := mkWorld {
  (* the answer to a GET; [None] when the transport raises *)
  http_get : string → option Response;
  (* urllib.parse.urljoin, on the references on which it returns *)
  urljoin : string → string → string;
  (* the file a path denotes *)
  realpath : string → string;
  (* whether [open(.., "w")] succeeds on that file *)
  writable : string → bool;
}.

(** ** Exceptions, state and the monad of the script *)

Inductive Exception :=
| ConnectionError (url : string)   (* raised by requests.get *)
| AttributeError (attr : string)   (* None.text *)
| TypeError                        (* None["href"] *)
| KeyError (key : string)          (* tag["href"], attribute missing *)
| OSError (path : string).         (* open(path, "w") *)

(** The error classes of the specification. *)
Definition is_FetchError (e : Exception) : bool :=
  match e with ConnectionError _ => true | _ => false end.

Definition is_ExtractionError (e : Exception) : bool :=
  match e with
  | AttributeError _ | TypeError | KeyError _ => true
  | _ => false
  end.

Definition is_IOError (e : Exception) : bool :=
  match e with OSError _ => true | _ => false end.

(** Which call of [requests.get] sent a request: the one in
    [parse_single_author] or one of the two in [get_quotes]. *)
Inductive CallSite := InParseSingleAuthor | InGetQuotes.

(** A file is a list of lines, keyed by the file its path denotes
    ([realpath]).  The lines of a CSV table are its rows; a line appended by
    the log handler is a row of one cell, the formatted record. *)
Record State := mkState {
  AUTHOR_CACHE : dict Author;
  requests : list (CallSite * string);     (* oldest first *)
  log : list string;                       (* messages logged, oldest first *)
  files : gmap string (list Row);
}.

(** [logging.basicConfig(format="[%(levelname)8s] %(message)s", handlers=
    [FileHandler("parser.log"), StreamHandler(sys.stdout)])].  The file
    handler holds [parser.log] open for appending from the moment the module
    is loaded; an INFO record is laid out as below. *)
Definition LOG_FILE : string := "parser.log".

Definition log_record (msg : string) : Row := [CStr ("[    INFO] " +:+ msg)].

(** The file system once a line is appended to the file [p]. *)
Definition append_line (p : string) (line : Row)
    (fs : gmap string (list Row)) : gmap string (list Row) :=
  <[p := default [] (fs !! p) ++ [line]]> fs.

Definition initial_state : State := mkState [] [] [] ∅.

Inductive Result (A : Type) :=
| Return (a : A)
| Raise (e : Exception).
Arguments Return {A} a.
Arguments Raise {A} e.

(** A statement: it ends normally or raises, and in both cases leaves the
    state it has reached. *)
Definition M (A : Type) : Type := State → Result A * State.

Definition ret {A} (a : A) : M A := λ st, (Return a, st).
Definition raise {A} (e : Exception) : M A := λ st, (Raise e, st).
Definition bind {A B} (m : M A) (k : A → M B) : M B :=
  λ st, match m st with
        | (Return a, st') => k a st'
        | (Raise e, st') => (Raise e, st')
        end.

#[export] Instance M_ret : MRet M := @ret.
#[export] Instance M_bind : MBind M := λ A B k m, bind m k.

(** Statements in sequence over a list: a list comprehension whose body may
    raise. *)
Fixpoint mapM {A B} (f : A → M B) (l : list A) : M (list B) :=
  match l with
  | [] => ret []
  | x :: l' => y ← f x; ys ← mapM f l'; ret (y :: ys)
  end.

Section Program.
Context (W : World).

Definition requests_get (site : CallSite) (url : string) : M Response :=
  λ st,
    let st' := mkState (AUTHOR_CACHE st) (requests st ++ [(site, url)])
                       (log st) (files st) in
    match http_get W url with
    | Some r => (Return r, st')
    | None => (Raise (ConnectionError url), st')
    end.

(** [logging.info(msg)]: the record goes to both handlers, the stream and
    the log file. *)
Definition logging_info (msg : string) : M unit :=
  λ st, (Return tt,
         mkState (AUTHOR_CACHE st) (requests st) (log st ++ [msg])
           (append_line (realpath W LOG_FILE) (log_record msg) (files st))).

Definition cache_store (author_name : string) (a : Author) : M unit :=
  λ st, (Return tt,
         mkState (dict_setitem author_name a (AUTHOR_CACHE st))
                 (requests st) (log st) (files st)).

(** [x.text] where [x] may be [None]. *)
Definition dot_text (x : option Node) : M string :=
  match x with
  | Some n => ret (text_of n)
  | None => raise (AttributeError "text")
  end.

(** [x[key]] where [x] may be [None]. *)
Definition getitem (x : option Node) (key : string) : M string :=
  match x with
  | Some (Tag _ _ attrs _) =>
      match assoc key attrs with
      | Some v => ret v
      | None => raise (KeyError key)
      end
  | Some (NavigableString _) | Some (OtherString _ _) => raise TypeError
  | None => raise TypeError
  end.

Definition parse_single_author (author_name author_url : string) : M unit :=
  λ st,
    if negb (dict_contains author_name (AUTHOR_CACHE st)) then
      (page ← requests_get InParseSingleAuthor
                 (urljoin W BASE_URL author_url);
       let soup := BeautifulSoup (content page) in
       name ← dot_text (select_one soup ".author-title");
       born_date ← dot_text (select_one soup ".author-born-date");
       born_location ← dot_text (select_one soup ".author-born-location");
       description ← dot_text (select_one soup ".author-description");
       cache_store author_name
         (mkAuthor name born_date born_location description)) st
    else
      logging_info ("Getting author " +:+ author_name +:+ " from cache") st.

Definition parse_single_quote (quote_soup : Node) : M Quote :=
  author_name ← dot_text (select_one quote_soup ".author");
  author_url ← getitem (select_one quote_soup "a") "href";
  parse_single_author author_name author_url;;
  text ← dot_text (select_one quote_soup ".text");
  ret (mkQuote text author_name (text_of <$> select quote_soup ".tag")).

Definition get_single_page_quotes (page_soup : Node) : M (list Quote) :=
  let quotes := select page_soup ".quote" in
  mapM parse_single_quote quotes.

(** [bool(tag)] is [True] for every tag, [bool(None)] is [False]. *)
Definition is_next_page (page_soup : Node) : bool :=
  bool_decide (is_Some (select_one page_soup ".next")).

(** The [while] loop of [get_quotes].  [fuel] bounds the number of
    iterations; [None] means the bound was reached with the loop still
    running. *)
Fixpoint get_quotes_loop (fuel : nat) (soup : Node) (page_num : Z)
    (all_quotes : list Quote) (st : State)
    : option (Result (list Quote) * State) :=
  if is_next_page soup then
    match fuel with
    | O => None
    | S fuel' =>
        let page_num := page_num + 1 in
        match
          (logging_info ("Start parsing page " +:+ pretty page_num);;
           page ← requests_get InGetQuotes
                     (urljoin W BASE_URL
                        ("page/" +:+ pretty page_num +:+ "/"));
           let soup := BeautifulSoup (content page) in
           quotes ← get_single_page_quotes soup;
           ret (soup, quotes)) st
        with
        | (Return (soup, quotes), st') =>
            get_quotes_loop fuel' soup page_num (all_quotes ++ quotes) st'
        | (Raise e, st') => Some (Raise e, st')
        end
    end
  else Some (Return all_quotes, st).

Definition get_quotes (fuel : nat) (st : State)
    : option (Result (list Quote) * State) :=
  match
    (logging_info "Start parsing Quotes";;
     page ← requests_get InGetQuotes BASE_URL;
     let soup := BeautifulSoup (content page) in
     all_quotes ← get_single_page_quotes soup;
     ret (soup, all_quotes)) st
  with
  | (Return (soup, all_quotes), st') =>
      get_quotes_loop fuel soup 1 all_quotes st'
  | (Raise e, st') => Some (Raise e, st')
  end.

(** [with open(path, "w", ...) as file: writer.writerow(header);
    writer.writerows(rows)].  Opening fails on an unwritable file and
    otherwise replaces what the file held. *)
Definition write_csv (path : string) (header : list string)
    (rows : list Row) : M unit :=
  λ st,
    if writable W (realpath W path) then
      (Return tt,
       mkState (AUTHOR_CACHE st) (requests st) (log st)
               (<[realpath W path := (CStr <$> header) :: rows]> (files st)))
    else (Raise (OSError path), st).

Definition write_quotes_to_csv (output_csv_path : string)
    (quotes : list Quote) : M unit :=
  write_csv output_csv_path QUOTE_FIELDS (astuple_quote <$> quotes).

Definition write_author_to_csv (csv_path : string) : M unit :=
  λ st,
    write_csv csv_path AUTHOR_FIELDS
      (astuple_author <$> dict_values (AUTHOR_CACHE st)) st.

Definition main (fuel : nat) (output_csv_path : string) (st : State)
    : option (Result unit * State) :=
  match get_quotes fuel st with
  | None => None
  | Some (Raise e, st') => Some (Raise e, st')
  | Some (Return quotes, st') =>
      Some ((write_quotes_to_csv output_csv_path quotes;;
             write_author_to_csv "author.csv") st')
  end.

End Program.

(** ** What a page denotes, without the effects *)

(** The record a profile page yields: the four fields [parse_single_author]
    reads, or [None] when one of the selectors finds nothing. *)
Definition author_of_page (soup : Node) : option Author :=
  match select_one soup ".author-title",
        select_one soup ".author-born-date",
        select_one soup ".author-born-location",
        select_one soup ".author-description" with
  | Some t, Some d, Some l, Some s =>
      Some (mkAuthor (text_of t) (text_of d) (text_of l) (text_of s))
  | _, _, _, _ => None
  end.

(** The [href] that [parse_single_quote] reads off a container: that of its
    first [a] element. *)
Definition href_of (quote_soup : Node) : option string :=
  match select_one quote_soup "a" with
  | Some (Tag _ _ attrs _) => assoc "href" attrs
  | _ => None
  end.

(** The quote a container denotes: the fields [parse_single_quote] reads,
    or [None] when a required node is absent. *)
Definition quote_of (quote_soup : Node) : option Quote :=
  match select_one quote_soup ".author", href_of quote_soup,
        select_one quote_soup ".text" with
  | Some a, Some _, Some t =>
      Some (mkQuote (text_of t) (text_of a)
              (text_of <$> select quote_soup ".tag"))
  | _, _, _ => None
  end.

(** The three required nodes of a container, one by one. *)
Definition has_author_name (quote_soup : Node) : bool :=
  bool_decide (is_Some (select_one quote_soup ".author")).
Definition has_author_link (quote_soup : Node) : bool :=
  bool_decide (is_Some (href_of quote_soup)).
Definition has_text (quote_soup : Node) : bool :=
  bool_decide (is_Some (select_one quote_soup ".text")).
Definition has_required (quote_soup : Node) : bool :=
  has_author_name quote_soup && has_author_link quote_soup
  && has_text quote_soup.

#[export] Instance CallSite_eq_dec : EqDecision CallSite.
Proof. solve_decision. Defined.

(** The URLs requested from a given call site, oldest first. *)
Definition fetched_by (site : CallSite) (st : State) : list string :=
  (filter (λ r, r.1 = site) (requests st)).*2.

(** Well-formed dictionaries have no repeated key. *)
Definition dict_wf {V} (d : dict V) : Prop := NoDup (dict_keys d).

(** Number of entries stored under a key. *)
Definition dict_count {V} (k : string) (d : dict V) : nat :=
  length (filter (λ kv, kv.1 = k) d).

Section Listing.
Context (W : World).

(** The address of the [k]-th listing page. *)
Definition listing_url (k : Z) : string :=
  if bool_decide (k = 1) then BASE_URL
  else urljoin W BASE_URL ("page/" +:+ pretty k +:+ "/").

Definition listing_page (k : Z) : option Node :=
  (λ r, BeautifulSoup (content r)) <$> http_get W (listing_url k).

Fixpoint listing_urls (k : Z) (n : nat) : list string :=
  match n with
  | O => []
  | S n' => listing_url k :: listing_urls (k + 1) n'
  end.

(** [chain k pages]: [pages] are the listing pages number [k], [k+1], ...
    as the site serves them, each but the last carrying a next-page
    indicator, the last carrying none. *)
Inductive chain : Z → list Node → Prop :=
| chain_last k s :
    listing_page k = Some s → is_next_page s = false → chain k [s]
| chain_next k s pages :
    listing_page k = Some s → is_next_page s = true →
    chain (k + 1) pages → chain k (s :: pages).

(** The profile page behind a container can be resolved on a cache miss. *)
Definition resolvable (quote_soup : Node) : Prop :=
  ∃ href r a,
    href_of quote_soup = Some href ∧
    http_get W (urljoin W BASE_URL href) = Some r ∧
    author_of_page (BeautifulSoup (content r)) = Some a.

(** All quote containers of a list of pages, page by page. *)
Definition containers (pages : list Node) : list Node :=
  pages ≫= (λ p, select p ".quote").

(** The keys a dictionary has after the names are looked up one by one, each
    name not yet a key being added behind the others. *)
Definition first_seen (keys names : list string) : list string :=
  foldl (λ ks n, if bool_decide (n ∈ ks) then ks else ks ++ [n]) keys names.

(** A sequence of resolve calls, each run in the state the previous one
    left, whether it returned or raised. *)
Definition resolve_all (calls : list (string * string)) (st : State) : State :=
  foldl (λ st c, (parse_single_author W c.1 c.2 st).2) st calls.

(** The exception a statement ended with, if it raised. *)
Definition raised {A} (r : Result A) : option Exception :=
  match r with
  | Raise e => Some e
  | Return _ => None
  end.

(** The state once a record is logged and a listing page requested. *)
Definition page_started (msg url : string) (st : State) : State :=
  mkState (AUTHOR_CACHE st) (requests st ++ [(InGetQuotes, url)])
    (log st ++ [msg])
    (append_line (realpath W LOG_FILE) (log_record msg) (files st)).

(** The requests sent between two states. *)
Definition sent_since (st st' : State) : list (CallSite * string) :=
  drop (length (requests st)) (requests st').

(** A request meets a failure when the transport gives no answer, when the
    listing page it fetches holds a container without one of its required
    nodes, or when the profile page it fetches lacks one of the four
    fields. *)
Definition request_fails (rq : CallSite * string) : Prop :=
  match http_get W rq.2 with
  | None => True
  | Some r =>
      match rq.1 with
      | InGetQuotes =>
          Exists (λ c, has_required c = false)
            (select (BeautifulSoup (content r)) ".quote")
      | InParseSingleAuthor =>
          author_of_page (BeautifulSoup (content r)) = None
      end
  end.

(** The record behind a profile address, when the page is served and has
    the four fields. *)
Definition profile_record (url : string) : option Author :=
  match http_get W url with
  | Some r => author_of_page (BeautifulSoup (content r))
  | None => None
  end.

(** What the requests of a statement tell about its outcome [oe] (the
    exception raised, if any): a request the transport left unanswered is
    the fetch error raised; a request that meets a failure means that the
    statement raised; and a statement raises only on such a request, or on
    a [defect] of what it was given. *)
Definition traced (st : State) (oe : option Exception) (st' : State)
    (defect : Prop) : Prop :=
  ∃ new,
    requests st' = requests st ++ new ∧
    (∀ site url, (site, url) ∈ new → http_get W url = None →
                 oe = Some (ConnectionError url)) ∧
    (Exists request_fails new → is_Some oe) ∧
    (is_Some oe → defect ∨ Exists request_fails new).

(** What the profile requests of a statement tell about the cache: the
    entries added carry, in order, the records of the pages that were
    served complete. *)
Definition recorded (st st' : State) : Prop :=
  ∃ urls entries,
    fetched_by InParseSingleAuthor st' =
      fetched_by InParseSingleAuthor st ++ urls ∧
    AUTHOR_CACHE st' = AUTHOR_CACHE st ++ entries ∧
    entries.*2 = omap profile_record urls.

(** The same site with the status of every response recoded by [f]. *)
Definition with_status (f : string → Z → Z) : World :=
  mkWorld
    (λ url, (λ r, mkResponse (f url (status_code r)) (content r))
              <$> http_get W url)
    (urljoin W) (realpath W) (writable W).
End Listing.

(** ** A small site to run the script on *)

Module Demo.

Definition quote_div (txt who href : string) (tgs : list string) : Node :=
  Tag "div" ["quote"] []
    [ Tag "span" ["text"] [] [NavigableString txt];
      Tag "span" [] []
        [ NavigableString "by ";
          Tag "small" ["author"] [] [NavigableString who];
          Tag "a" [] [("href", href)] [NavigableString "(about)"] ];
      Tag "div" ["tags"] []
        ((λ t, Tag "a" ["tag"] [("href", "tag/" +:+ t)]
                 [NavigableString t]) <$> tgs) ].

Definition next_li (href : string) : Node :=
  Tag "li" ["next"] [] [Tag "a" [] [("href", href)] [NavigableString "Next"]].

Definition profile (title date place about : string) : list Node :=
  [ Tag "h3" ["author-title"] [] [NavigableString title];
    Tag "span" ["author-born-date"] [] [NavigableString date];
    Tag "span" ["author-born-location"] [] [NavigableString place];
    Tag "div" ["author-description"] [] [NavigableString about] ].

Definition alice_page := profile "Alice" "May 1, 1900" "in Wonderland" "A.".
Definition bob_page := profile "Bob" "June 2, 1901" "in Bristol" "B.".

Definition q1 := quote_div "One" "Alice" "author/Alice" ["x"; "y"].
Definition q2 := quote_div "Two" "Bob" "author/Bob" [].
Definition q3 := quote_div "Three" "Alice" "author/Alice" ["x"; "x"].

Definition page1 : list Node := [q1; q2; next_li "page/2/"].
Definition page2 : list Node := [q3].

Definition serve (table : list (string * Response)) (url : string)
    : option Response := assoc url table.

Definition join (base rel : string) : string := base +:+ rel.

(** Two listing pages, two authors, every file writable. *)
Definition site : World :=
  mkWorld
    (serve [ (BASE_URL, mkResponse 200 page1);
             (BASE_URL +:+ "page/2/", mkResponse 200 page2);
             (BASE_URL +:+ "author/Alice", mkResponse 200 alice_page);
             (BASE_URL +:+ "author/Bob", mkResponse 200 bob_page) ])
    join id (λ _, true).

(** The root page answers 404 with an empty body. *)
Definition gone : World :=
  mkWorld (serve [(BASE_URL, mkResponse 404 [])]) join id (λ _, true).

(** One complete quote by Bob, whose profile page lacks its description. *)
Definition bob_torn : list Node :=
  [ Tag "h3" ["author-title"] [] [NavigableString "Bob"];
    Tag "span" ["author-born-date"] [] [NavigableString "June 2, 1901"];
    Tag "span" ["author-born-location"] [] [NavigableString "in Bristol"] ].

Definition torn_profile : World :=
  mkWorld
    (serve [ (BASE_URL, mkResponse 200 [q2]);
             (BASE_URL +:+ "author/Bob", mkResponse 200 bob_torn) ])
    join id (λ _, true).

(** The second listing page holds a container without its text. *)
Definition no_text : Node :=
  Tag "div" ["quote"] []
    [ Tag "small" ["author"] [] [NavigableString "Bob"];
      Tag "a" [] [("href", "author/Bob")] [NavigableString "(about)"] ].

Definition torn_quote : World :=
  mkWorld
    (serve [ (BASE_URL, mkResponse 200 page1);
             (BASE_URL +:+ "page/2/", mkResponse 200 [no_text]);
             (BASE_URL +:+ "author/Alice", mkResponse 200 alice_page);
             (BASE_URL +:+ "author/Bob", mkResponse 200 bob_page) ])
    join id (λ _, true).


(** Bob's quote links to a profile page titled otherwise. *)
Definition robert_page := profile "Robert" "June 2, 1901" "in Bristol" "B.".

Definition retitled : World :=
  mkWorld
    (serve [ (BASE_URL, mkResponse 200 [q2]);
             (BASE_URL +:+ "author/Bob", mkResponse 200 robert_page) ])
    join id (λ _, true).

(** Containers with a defect each: no author name, no link, a link without
    [href]. *)
Definition no_author : Node :=
  Tag "div" ["quote"] [] [Tag "span" ["text"] [] [NavigableString "One"]].

Definition no_link : Node :=
  Tag "div" ["quote"] []
    [ Tag "span" ["text"] [] [NavigableString "One"];
      Tag "small" ["author"] [] [NavigableString "Alice"] ].

Definition no_href : Node :=
  Tag "div" ["quote"] []
    [ Tag "span" ["text"] [] [NavigableString "One"];
      Tag "small" ["author"] [] [NavigableString "Alice"];
      Tag "a" [] [] [NavigableString "(about)"] ].

(** Every address answers with a page that carries a next-page indicator
    and nothing else. *)
Definition endless : World :=
  mkWorld (λ _, Some (mkResponse 200 [next_li "page/2/"])) join id (λ _, true).


(** Nothing can be written. *)
Definition read_only : World :=
  mkWorld (http_get site) join id (λ _, false).

(** The root page holds a container without author name and a next-page
    indicator; the second page is complete and the last. *)
Definition torn_root : World :=
  mkWorld
    (serve [ (BASE_URL, mkResponse 200 [no_author; next_li "page/2/"]);
             (BASE_URL +:+ "page/2/", mkResponse 200 page2);
             (BASE_URL +:+ "author/Alice", mkResponse 200 alice_page) ])
    join id (λ _, true).

(** The second listing page is announced but not served. *)
Definition cut : World :=
  mkWorld
    (serve [ (BASE_URL, mkResponse 200 page1);
             (BASE_URL +:+ "author/Alice", mkResponse 200 alice_page);
             (BASE_URL +:+ "author/Bob", mkResponse 200 bob_page) ])
    join id (λ _, true).

(** Bob's quote, then a container without author name; Bob's profile page
    is not served. *)
Definition bob_unreachable : World :=
  mkWorld (serve [(BASE_URL, mkResponse 200 [q2; no_author])])
    join id (λ _, true).

(** The state a run ends in. *)
Definition final {A} (o : option (Result A * State)) : State :=
  match o with
  | Some (_, st) => st
  | None => initial_state
  end.

Definition returned {A} (o : option (Result (list A) * State)) : list A :=
  match o with
  | Some (Return l, _) => l
  | _ => []
  end.

(** The state once the module is loaded in an empty directory: the file
    handler has created the log file. *)
Definition loaded : State := mkState [] [] [] {[ "parser.log" := [] ]}.

(** The walk over [site] and the run that writes [quotes.csv]. *)
Definition walk := get_quotes site 5 initial_state.
Definition run := main site 5 "quotes.csv" initial_state.

End Demo.

(** ** Dictionaries *)

Ltac unfold_M :=
  unfold mbind, M_bind, bind, mret, M_ret, ret, raise in *.

Lemma dict_contains_true {V} k (d : dict V) :
  dict_contains k d = true ↔ k ∈ dict_keys d.
Proof. unfold dict_contains. apply bool_decide_eq_true. Qed.

Lemma dict_contains_false {V} k (d : dict V) :
  dict_contains k d = false ↔ k ∉ dict_keys d.
Proof. unfold dict_contains. apply bool_decide_eq_false. Qed.

Lemma dict_setitem_fresh {V} k (v : V) (d : dict V) :
  k ∉ dict_keys d → dict_setitem k v d = d ++ [(k, v)].
Proof.
  unfold dict_keys. induction d as [|[k' v'] d IH]; simpl; intros Hk; [done|].
  apply not_elem_of_cons in Hk as [Hne Hk].
  rewrite bool_decide_eq_false_2 by congruence. by rewrite IH.
Qed.

Lemma dict_setitem_keys {V} k (v : V) (d : dict V) :
  k ∈ dict_keys d → dict_keys (dict_setitem k v d) = dict_keys d.
Proof.
  unfold dict_keys. induction d as [|[k' v'] d IH]; simpl; intros Hk.
  - by apply elem_of_nil in Hk.
  - case_bool_decide; csimpl; [done|].
    apply elem_of_cons in Hk as [->|Hk]; [done|]. f_equal. by apply IH.
Qed.

Lemma dict_setitem_wf {V} k (v : V) (d : dict V) :
  dict_wf d → dict_wf (dict_setitem k v d).
Proof.
  unfold dict_wf. intros Hwf.
  destruct (decide (k ∈ dict_keys d)) as [Hin|Hout].
  - by rewrite dict_setitem_keys.
  - rewrite dict_setitem_fresh by done. unfold dict_keys in *.
    rewrite fmap_app. simpl. apply NoDup_app. split_and!; [done| |].
    + intros x Hx Hx'. apply list_elem_of_singleton in Hx'. by subst.
    + apply NoDup_singleton.
Qed.

Lemma dict_count_absent {V} k (d : dict V) :
  k ∉ dict_keys d → dict_count k d = 0%nat.
Proof.
  unfold dict_keys, dict_count.
  induction d as [|[k' v'] d IH]; intros Hk; [done|].
  rewrite fmap_cons in Hk. apply not_elem_of_cons in Hk as [Hne Hk].
  rewrite filter_cons_False by (simpl; naive_solver). by apply IH.
Qed.

Lemma dict_count_wf {V} k (d : dict V) :
  dict_wf d → k ∈ dict_keys d → dict_count k d = 1%nat.
Proof.
  unfold dict_wf. induction d as [|[k' v'] d IH]; intros Hwf Hk.
  - by apply elem_of_nil in Hk.
  - unfold dict_keys in Hwf, Hk. rewrite fmap_cons in Hwf, Hk.
    apply NoDup_cons in Hwf as [Hnotin Hwf]. unfold dict_count.
    rewrite filter_cons. cbn [fst] in *. case_decide as Hkk.
    + subst k'. cbn [length]. f_equal. by apply dict_count_absent.
    + apply elem_of_cons in Hk as [->|Hk]; [done|]. by apply IH.
Qed.

Lemma dict_count_le_1 {V} k (d : dict V) :
  dict_wf d → (dict_count k d ≤ 1)%nat.
Proof.
  intros Hwf. destruct (decide (k ∈ dict_keys d)).
  - by rewrite dict_count_wf.
  - rewrite dict_count_absent by done. lia.
Qed.

Lemma assoc_snoc_eq {V} k (v : V) (d : dict V) :
  k ∉ dict_keys d → assoc k (d ++ [(k, v)]) = Some v.
Proof.
  unfold dict_keys. induction d as [|[k' v'] d IH]; intros Hk; simpl.
  - by rewrite bool_decide_eq_true_2.
  - rewrite fmap_cons in Hk. apply not_elem_of_cons in Hk as [Hne Hk].
    rewrite bool_decide_eq_false_2 by (simpl in Hne; congruence). by apply IH.
Qed.

Lemma assoc_snoc_ne {V} k k' (v : V) (d : dict V) :
  k' ≠ k → assoc k' (d ++ [(k, v)]) = assoc k' d.
Proof.
  intros Hne. induction d as [|[k0 v0] d IH]; simpl.
  - by rewrite bool_decide_eq_false_2 by congruence.
  - by rewrite IH.
Qed.

Lemma assoc_app_Some {V} k (v : V) (d d' : dict V) :
  assoc k d = Some v → assoc k (d ++ d') = Some v.
Proof.
  induction d as [|[k0 v0] d IH]; simpl; [done|].
  by case_bool_decide.
Qed.

(** In a dictionary a key sits at one position only. *)
Lemma dict_unique_index {V} k (d : dict V) :
  dict_wf d → k ∈ dict_keys d →
  ∃ i v, d !! i = Some (k, v) ∧ ∀ j w, d !! j = Some (k, w) → j = i.
Proof.
  unfold dict_wf, dict_keys. intros Hwf Hk.
  apply list_elem_of_lookup in Hk as [i Hi].
  pose proof Hi as Hi'. rewrite list_lookup_fmap in Hi'.
  destruct (d !! i) as [[k' v]|] eqn:Hd; [|done]. simpl in Hi'.
  injection Hi' as ->. exists i, v. split; [done|].
  intros j w Hj. eapply NoDup_lookup; [exact Hwf| |exact Hi].
  by rewrite list_lookup_fmap, Hj.
Qed.

(** ** Files *)

Lemma append_line_ne p q line (fs : gmap string (list Row)) :
  q ≠ p → append_line p line fs !! q = fs !! q.
Proof. intros Hne. unfold append_line. by rewrite lookup_insert_ne. Qed.

Lemma append_line_eq p line (fs : gmap string (list Row)) :
  append_line p line fs !! p = Some (default [] (fs !! p) ++ [line]).
Proof. unfold append_line. by rewrite lookup_insert_eq. Qed.

(** ** How a statement may change the state *)

(** Every statement of the crawl leaves the files other than the log file
    alone and only appends to the log file; it keeps the entries of the
    cache in place while possibly adding new ones behind them, and only
    adds to the requests sent. *)
Record evolves (W : World) (st st' : State) : Prop := mkEvolves {
  ev_files : ∀ p, p ≠ realpath W LOG_FILE → files st' !! p = files st !! p;
  ev_log_file :
    default [] (files st !! realpath W LOG_FILE)
    `prefix_of` default [] (files st' !! realpath W LOG_FILE);
  ev_cache : AUTHOR_CACHE st `prefix_of` AUTHOR_CACHE st';
  ev_wf : dict_wf (AUTHOR_CACHE st) → dict_wf (AUTHOR_CACHE st');
  ev_requests : requests st `prefix_of` requests st';
}.

Lemma evolves_refl W st : evolves W st st.
Proof. by split. Qed.

Lemma evolves_trans W st1 st2 st3 :
  evolves W st1 st2 → evolves W st2 st3 → evolves W st1 st3.
Proof.
  intros [H1 H2 H3 H4 H5] [H1' H2' H3' H4' H5'].
  split; [|by etrans|by etrans|tauto|by etrans].
  intros p Hp. by rewrite H1', H1.
Qed.

Lemma evolves_keys W st st' k :
  evolves W st st' →
  k ∈ dict_keys (AUTHOR_CACHE st) → k ∈ dict_keys (AUTHOR_CACHE st').
Proof.
  intros [_ _ [new ->] _ _]. unfold dict_keys. rewrite fmap_app.
  intros ?. apply elem_of_app. by left.
Qed.

Lemma evolves_logged W st msg :
  evolves W st
    (mkState (AUTHOR_CACHE st) (requests st) (log st ++ [msg])
       (append_line (realpath W LOG_FILE) (log_record msg) (files st))).
Proof.
  split; simpl; try done.
  - intros p Hp. by apply append_line_ne.
  - rewrite append_line_eq. simpl. by apply prefix_app_r.
Qed.

Lemma evolves_requested W st rq :
  evolves W st
    (mkState (AUTHOR_CACHE st) (requests st ++ [rq]) (log st) (files st)).
Proof. split; simpl; try done. by apply prefix_app_r. Qed.

Lemma evolves_page_started W st msg url :
  evolves W st (page_started W msg url st).
Proof.
  split; simpl; try done.
  - intros p Hp. by apply append_line_ne.
  - rewrite append_line_eq. simpl. by apply prefix_app_r.
  - by apply prefix_app_r.
Qed.

Section Proofs.
Context (W : World).

(** *** [parse_single_author] *)

Lemma parse_single_author_hit author_name author_url st :
  dict_contains author_name (AUTHOR_CACHE st) = true →
  parse_single_author W author_name author_url st =
    (Return tt,
     mkState (AUTHOR_CACHE st) (requests st)
       (log st ++ ["Getting author " +:+ author_name +:+ " from cache"])
       (append_line (realpath W LOG_FILE)
          (log_record ("Getting author " +:+ author_name +:+ " from cache"))
          (files st))).
Proof. intros H. unfold parse_single_author. by rewrite H. Qed.

Lemma parse_single_author_miss author_name author_url st :
  dict_contains author_name (AUTHOR_CACHE st) = false →
  parse_single_author W author_name author_url st =
    let url := urljoin W BASE_URL author_url in
    let rs := requests st ++ [(InParseSingleAuthor, url)] in
    match http_get W url with
    | None =>
        (Raise (ConnectionError url),
         mkState (AUTHOR_CACHE st) rs (log st) (files st))
    | Some r =>
        match author_of_page (BeautifulSoup (content r)) with
        | Some a =>
            (Return tt,
             mkState (AUTHOR_CACHE st ++ [(author_name, a)]) rs (log st)
               (files st))
        | None =>
            (Raise (AttributeError "text"),
             mkState (AUTHOR_CACHE st) rs (log st) (files st))
        end
    end.
Proof.
  intros H. unfold parse_single_author. rewrite H. simpl.
  apply dict_contains_false in H.
  unfold_M. unfold requests_get, author_of_page.
  destruct (http_get W _) as [r|]; [|done].
  repeat (match goal with
          | |- context [dot_text (select_one ?s ?c)] =>
              destruct (select_one s c); simpl; try done
          end).
  unfold cache_store. simpl. by rewrite dict_setitem_fresh.
Qed.

Lemma parse_single_author_evolves author_name author_url st r st' :
  parse_single_author W author_name author_url st = (r, st') →
  evolves W st st'.
Proof.
  destruct (dict_contains author_name (AUTHOR_CACHE st)) eqn:Hc.
  - rewrite parse_single_author_hit by done. intros [= <- <-].
    apply evolves_logged.
  - rewrite parse_single_author_miss by done. simpl.
    apply dict_contains_false in Hc.
    destruct (http_get W _) as [resp|];
      [destruct (author_of_page _) as [a|]|]; intros [= <- <-];
      try apply evolves_requested.
    split; simpl; try done; try (by apply prefix_app_r).
    intros Hwf. rewrite <- dict_setitem_fresh by done.
    by apply dict_setitem_wf.
Qed.

Lemma parse_single_author_Return author_name author_url st st' :
  parse_single_author W author_name author_url st = (Return tt, st') →
  author_name ∈ dict_keys (AUTHOR_CACHE st').
Proof.
  destruct (dict_contains author_name (AUTHOR_CACHE st)) eqn:Hc.
  - rewrite parse_single_author_hit by done. intros [= <-]. simpl.
    by apply dict_contains_true.
  - rewrite parse_single_author_miss by done. simpl.
    destruct (http_get W _) as [resp|];
      [destruct (author_of_page _) as [a|]|]; intros [= <-]. simpl.
    unfold dict_keys. rewrite fmap_app. apply elem_of_app. right.
    simpl. apply list_elem_of_singleton. done.
Qed.

Lemma parse_single_author_listing author_name author_url st r st' :
  parse_single_author W author_name author_url st = (r, st') →
  fetched_by InGetQuotes st' = fetched_by InGetQuotes st.
Proof.
  destruct (dict_contains author_name (AUTHOR_CACHE st)) eqn:Hc.
  - rewrite parse_single_author_hit by done. by intros [= <- <-].
  - rewrite parse_single_author_miss by done. simpl.
    destruct (http_get W _) as [resp|];
      [destruct (author_of_page _) as [a|]|]; intros [= <- <-];
      unfold fetched_by; simpl; rewrite filter_app, fmap_app; simpl;
      by rewrite app_nil_r.
Qed.

Lemma parse_single_author_resolves author_name author_url st r a :
  http_get W (urljoin W BASE_URL author_url) = Some r →
  author_of_page (BeautifulSoup (content r)) = Some a →
  ∃ st', parse_single_author W author_name author_url st = (Return tt, st').
Proof.
  intros Hget Hpage.
  destruct (dict_contains author_name (AUTHOR_CACHE st)) eqn:Hc.
  - rewrite parse_single_author_hit by done. eauto.
  - rewrite parse_single_author_miss by done. simpl.
    rewrite Hget, Hpage. eauto.
Qed.

(** *** [parse_single_quote] *)

Lemma getitem_href quote_soup st :
  match href_of quote_soup with
  | Some h => getitem (select_one quote_soup "a") "href" st = (Return h, st)
  | None =>
      ∃ e, is_ExtractionError e = true ∧
           getitem (select_one quote_soup "a") "href" st = (Raise e, st)
  end.
Proof.
  unfold href_of, getitem.
  destruct (select_one quote_soup "a") as [[s|nm cls attrs cs|k s]|];
    [by exists TypeError| |by exists TypeError|by exists TypeError].
  destruct (assoc "href" attrs); [done|]. by exists (KeyError "href").
Qed.

Lemma parse_single_quote_eq quote_soup st :
  parse_single_quote W quote_soup st =
    match select_one quote_soup ".author" with
    | None => (Raise (AttributeError "text"), st)
    | Some a =>
        match getitem (select_one quote_soup "a") "href" st with
        | (Raise e, st0) => (Raise e, st0)
        | (Return h, st0) =>
            match parse_single_author W (text_of a) h st0 with
            | (Raise e, st1) => (Raise e, st1)
            | (Return _, st1) =>
                match select_one quote_soup ".text" with
                | None => (Raise (AttributeError "text"), st1)
                | Some t =>
                    (Return (mkQuote (text_of t) (text_of a)
                               (text_of <$> select quote_soup ".tag")), st1)
                end
            end
        end
    end.
Proof.
  unfold parse_single_quote. unfold_M.
  destruct (select_one quote_soup ".author") as [a|]; simpl; [|done].
  destruct (getitem _ _ st) as [[h|e] st0]; [|done].
  destruct (parse_single_author W _ _ st0) as [[[]|e] st1]; [|done].
  by destruct (select_one quote_soup ".text").
Qed.

Lemma parse_single_quote_evolves quote_soup st r st' :
  parse_single_quote W quote_soup st = (r, st') →
  evolves W st st' ∧
  fetched_by InGetQuotes st' = fetched_by InGetQuotes st.
Proof.
  rewrite parse_single_quote_eq.
  destruct (select_one quote_soup ".author") as [a|];
    [|intros [= <- <-]; split; [apply evolves_refl|done]].
  pose proof (getitem_href quote_soup st) as Hh.
  destruct (href_of quote_soup) as [h|];
    [rewrite Hh|destruct Hh as (e & _ & ->);
                intros [= <- <-]; split; [apply evolves_refl|done]].
  destruct (parse_single_author W _ _ st) as [[[]|e] st1] eqn:Ha.
  - pose proof (parse_single_author_evolves _ _ _ _ _ Ha).
    pose proof (parse_single_author_listing _ _ _ _ _ Ha).
    by destruct (select_one quote_soup ".text"); intros [= <- <-].
  - pose proof (parse_single_author_evolves _ _ _ _ _ Ha).
    pose proof (parse_single_author_listing _ _ _ _ _ Ha).
    by intros [= <- <-].
Qed.

Lemma parse_single_quote_Return quote_soup st q st' :
  parse_single_quote W quote_soup st = (Return q, st') →
  quote_of quote_soup = Some q ∧
  author q ∈ dict_keys (AUTHOR_CACHE st').
Proof.
  rewrite parse_single_quote_eq. unfold quote_of.
  destruct (select_one quote_soup ".author") as [a|]; [|done].
  pose proof (getitem_href quote_soup st) as Hh.
  destruct (href_of quote_soup) as [h|];
    [rewrite Hh|by destruct Hh as (e & _ & ->)].
  destruct (parse_single_author W _ _ st) as [[[]|e] st1] eqn:Ha; [|done].
  apply parse_single_author_Return in Ha.
  destruct (select_one quote_soup ".text"); [|done].
  by intros [= <- <-].
Qed.

(** A container lacking a required node makes [parse_single_quote] raise.
    The error is an extraction error when the author name or the link is
    the missing node, since those are read before the author is
    resolved. *)
Lemma parse_single_quote_missing quote_soup st :
  has_required quote_soup = false →
  ∃ e st', parse_single_quote W quote_soup st = (Raise e, st') ∧
    (has_author_name quote_soup && has_author_link quote_soup = false →
     is_ExtractionError e = true ∧ st' = st).
Proof.
  unfold has_required, has_author_name, has_author_link, has_text.
  rewrite parse_single_quote_eq. intros Hreq.
  destruct (select_one quote_soup ".author") as [a|];
    [|by eexists _, _].
  pose proof (getitem_href quote_soup st) as Hh.
  destruct (href_of quote_soup) as [h|];
    [rewrite Hh|destruct Hh as (e & ? & ->); by eexists _, _].
  rewrite !bool_decide_eq_true_2 in * by eauto. simpl in *.
  apply bool_decide_eq_false in Hreq.
  destruct (parse_single_author W _ _ st) as [[[]|e] st1]; [|by eexists _, _].
  destruct (select_one quote_soup ".text"); [|by eexists _, _].
  destruct Hreq. eauto.
Qed.

(** The error a defective container raises is an extraction error, unless
    the resolution of its author raised first. *)
Lemma parse_single_quote_missing_kind quote_soup st :
  has_required quote_soup = false →
  ∃ e st', parse_single_quote W quote_soup st = (Raise e, st') ∧
    (is_ExtractionError e = true ∨
     ∃ a h, select_one quote_soup ".author" = Some a ∧
            href_of quote_soup = Some h ∧
            parse_single_author W (text_of a) h st = (Raise e, st')).
Proof.
  unfold has_required, has_author_name, has_author_link, has_text.
  rewrite parse_single_quote_eq. intros Hreq.
  destruct (select_one quote_soup ".author") as [a|];
    [|eexists _, _; split; [done|by left]].
  pose proof (getitem_href quote_soup st) as Hh.
  destruct (href_of quote_soup) as [h|];
    [rewrite Hh|destruct Hh as (e & ? & ->); eexists _, _; split; [done|by left]].
  rewrite !bool_decide_eq_true_2 in * by eauto. simpl in *.
  apply bool_decide_eq_false in Hreq.
  destruct (parse_single_author W _ _ st) as [[[]|e] st1] eqn:Ha.
  - destruct (select_one quote_soup ".text");
      [destruct Hreq; eauto|eexists _, _; split; [done|by left]].
  - eexists _, _. split; [done|]. right. eauto.
Qed.

Lemma parse_single_quote_resolvable quote_soup st :
  has_required quote_soup = true → resolvable W quote_soup →
  ∃ q st', parse_single_quote W quote_soup st = (Return q, st').
Proof.
  unfold has_required, has_author_name, has_author_link, has_text.
  intros Hreq (h & r & a & Hh & Hget & Hpage).
  apply andb_true_iff in Hreq as [Hreq Htext].
  apply andb_true_iff in Hreq as [Hname _].
  apply bool_decide_eq_true in Hname as [na Hna], Htext as [t Ht].
  rewrite parse_single_quote_eq, Hna, Ht.
  pose proof (getitem_href quote_soup st) as Hg. rewrite Hh in Hg.
  rewrite Hg.
  destruct (parse_single_author_resolves (text_of na) h st r a Hget Hpage)
    as [st' ->].
  eauto.
Qed.

Lemma has_required_quote_of quote_soup :
  has_required quote_soup = true ↔ is_Some (quote_of quote_soup).
Proof.
  unfold has_required, has_author_name, has_author_link, has_text, quote_of.
  rewrite !andb_true_iff, !bool_decide_eq_true.
  destruct (select_one quote_soup ".author"), (href_of quote_soup),
    (select_one quote_soup ".text"); split; intros H;
    repeat match goal with
           | H : _ ∧ _ |- _ => destruct H
           | H : is_Some None |- _ => by destruct H
           end; eauto.
Qed.

(** A failed resolution is the failure of the quote, whatever else the
    container holds. *)
Lemma parse_single_quote_author_Raise quote_soup st a h e st' :
  select_one quote_soup ".author" = Some a →
  href_of quote_soup = Some h →
  parse_single_author W (text_of a) h st = (Raise e, st') →
  parse_single_quote W quote_soup st = (Raise e, st').
Proof.
  intros Ha Hh Hr. rewrite parse_single_quote_eq, Ha.
  pose proof (getitem_href quote_soup st) as Hg. rewrite Hh in Hg.
  by rewrite Hg, Hr.
Qed.

(** *** [get_single_page_quotes] *)

Lemma mapM_quote_evolves cs st r st' :
  mapM (parse_single_quote W) cs st = (r, st') →
  evolves W st st' ∧
  fetched_by InGetQuotes st' = fetched_by InGetQuotes st.
Proof.
  revert st r st'. induction cs as [|c cs IH]; intros st r st'; simpl.
  - intros [= <- <-]. split; [apply evolves_refl|done].
  - unfold_M.
    destruct (parse_single_quote W c st) as [[q|e] st1] eqn:Hq;
      apply parse_single_quote_evolves in Hq as [Hev Hf].
    + destruct (mapM _ cs st1) as [[qs|e] st2] eqn:Hqs;
        apply IH in Hqs as [Hev' Hf']; intros [= <- <-];
        (split; [by eapply evolves_trans|congruence]).
    + by intros [= <- <-].
Qed.

Lemma mapM_quote_Return cs st qs st' :
  mapM (parse_single_quote W) cs st = (Return qs, st') →
  Forall2 (λ c q, quote_of c = Some q) cs qs ∧
  Forall (λ q, author q ∈ dict_keys (AUTHOR_CACHE st')) qs.
Proof.
  revert st qs st'. induction cs as [|c cs IH]; intros st qs st'; simpl.
  - intros [= <- <-]. by split.
  - unfold_M.
    destruct (parse_single_quote W c st) as [[q|e] st1] eqn:Hq; [|done].
    destruct (mapM _ cs st1) as [[qs'|e] st2] eqn:Hqs; [|done].
    intros [= <- <-].
    apply parse_single_quote_Return in Hq as [Hq Hk].
    pose proof (mapM_quote_evolves _ _ _ _ Hqs) as [Hev _].
    apply IH in Hqs as [HF2 HF].
    split; constructor; eauto using evolves_keys.
Qed.

Lemma mapM_quote_missing cs st :
  Exists (λ c, has_required c = false) cs →
  ∃ e st', mapM (parse_single_quote W) cs st = (Raise e, st').
Proof.
  intros Hex. revert st.
  induction Hex as [c cs Hc|c cs Hex IH]; intros st; simpl; unfold_M.
  - destruct (parse_single_quote_missing c st Hc) as (e & st' & -> & _).
    eauto.
  - destruct (parse_single_quote W c st) as [[q|e] st1]; [|eauto].
    destruct (IH st1) as (e & st' & ->). eauto.
Qed.

Lemma mapM_quote_resolvable cs st :
  Forall (λ c, has_required c = true ∧ resolvable W c) cs →
  ∃ qs st', mapM (parse_single_quote W) cs st = (Return qs, st').
Proof.
  intros Hall. revert st.
  induction Hall as [|c cs [Hreq Hres] _ IH]; intros st; simpl; unfold_M.
  - eauto.
  - destruct (parse_single_quote_resolvable c st Hreq Hres) as (q & st1 & ->).
    destruct (IH st1) as (qs & st2 & ->). eauto.
Qed.

Lemma get_single_page_quotes_eq page_soup :
  get_single_page_quotes W page_soup =
  mapM (parse_single_quote W) (select page_soup ".quote").
Proof. done. Qed.

(** A list comprehension raises at its first element that does. *)
Lemma mapM_Raise_at {A B} (f : A → M B) l1 x l2 st ys st1 e st' :
  mapM f l1 st = (Return ys, st1) →
  f x st1 = (Raise e, st') →
  mapM f (l1 ++ x :: l2) st = (Raise e, st').
Proof.
  revert st ys. induction l1 as [|x1 l1 IH]; intros st ys; simpl; unfold_M.
  - intros [= <- <-] ->. done.
  - destruct (f x1 st) as [[y|e1] st2]; [|done].
    destruct (mapM f l1 st2) as [[ys1|e2] st3] eqn:Hl1; [|done].
    intros [= <- <-] Hx. by rewrite (IH _ _ Hl1 Hx).
Qed.

Lemma mapM_Raise_split {A B} (f : A → M B) (l : list A) st e st' :
  mapM f l st = (Raise e, st') ↔
  ∃ l1 x l2 ys st1,
    l = l1 ++ x :: l2 ∧
    mapM f l1 st = (Return ys, st1) ∧
    f x st1 = (Raise e, st').
Proof.
  split.
  - revert st. induction l as [|x l IH]; intros st; simpl; unfold_M; [done|].
    destruct (f x st) as [[y|e1] st1] eqn:Hx.
    + destruct (mapM f l st1) as [[ys|e2] st2] eqn:Hl; [done|].
      intros [= <- <-].
      destruct (IH _ Hl) as (l1 & x2 & l2 & ys1 & st3 & -> & Hrun & Hraise).
      exists (x :: l1), x2, l2, (y :: ys1), st3. simpl. unfold_M.
      by rewrite Hx, Hrun.
    + intros [= <- <-]. by exists [], x, l, [], st.
  - intros (l1 & x & l2 & ys & st1 & -> & Hrun & Hraise).
    by eapply mapM_Raise_at.
Qed.

(** *** [get_quotes] *)

Arguments page_started : simpl never.

Lemma page_started_listing msg url st :
  fetched_by InGetQuotes (page_started W msg url st) =
  fetched_by InGetQuotes st ++ [url].
Proof.
  unfold fetched_by, page_started. simpl. rewrite filter_app, fmap_app.
  by rewrite filter_cons_True.
Qed.

Lemma page_started_profile msg url st :
  fetched_by InParseSingleAuthor (page_started W msg url st) =
  fetched_by InParseSingleAuthor st.
Proof.
  unfold fetched_by, page_started. simpl. rewrite filter_app, fmap_app.
  simpl. by rewrite app_nil_r.
Qed.

Lemma listing_url_succ k :
  1 ≤ k →
  listing_url W (k + 1) =
  urljoin W BASE_URL ("page/" +:+ pretty (k + 1) +:+ "/").
Proof.
  intros Hk. unfold listing_url. by rewrite bool_decide_eq_false_2 by lia.
Qed.

(** One turn of the loop, spelled out. *)
Lemma get_quotes_loop_eq fuel soup page_num all_quotes st :
  1 ≤ page_num →
  get_quotes_loop W fuel soup page_num all_quotes st =
  if is_next_page soup then
    match fuel with
    | O => None
    | S fuel' =>
        let url := listing_url W (page_num + 1) in
        let st1 :=
          page_started W ("Start parsing page " +:+ pretty (page_num + 1))
            url st in
        match http_get W url with
        | None => Some (Raise (ConnectionError url), st1)
        | Some r =>
            let soup' := BeautifulSoup (content r) in
            match get_single_page_quotes W soup' st1 with
            | (Return quotes, st2) =>
                get_quotes_loop W fuel' soup' (page_num + 1)
                  (all_quotes ++ quotes) st2
            | (Raise e, st2) => Some (Raise e, st2)
            end
        end
    end
  else Some (Return all_quotes, st).
Proof.
  intros Hk. rewrite listing_url_succ by done.
  destruct fuel as [|fuel]; simpl; [done|].
  destruct (is_next_page soup); [|done].
  unfold_M. unfold logging_info, requests_get, page_started. simpl.
  destruct (http_get W _); [|done].
  by destruct (get_single_page_quotes W _ _) as [[qs|e] st2].
Qed.

Lemma get_quotes_eq fuel st :
  get_quotes W fuel st =
  let st1 := page_started W "Start parsing Quotes" BASE_URL st in
  match http_get W BASE_URL with
  | None => Some (Raise (ConnectionError BASE_URL), st1)
  | Some r =>
      let soup := BeautifulSoup (content r) in
      match get_single_page_quotes W soup st1 with
      | (Return all_quotes, st2) => get_quotes_loop W fuel soup 1 all_quotes st2
      | (Raise e, st2) => Some (Raise e, st2)
      end
  end.
Proof.
  unfold get_quotes. unfold_M.
  unfold logging_info, requests_get, page_started. simpl.
  destruct (http_get W _); [|done].
  by destruct (get_single_page_quotes W _ _) as [[qs|e] st2].
Qed.

Lemma get_quotes_loop_evolves fuel soup page_num all_quotes st r st' :
  1 ≤ page_num →
  get_quotes_loop W fuel soup page_num all_quotes st = Some (r, st') →
  evolves W st st'.
Proof.
  revert soup page_num all_quotes st.
  induction fuel as [|fuel IH]; intros soup k acc st Hk;
    rewrite get_quotes_loop_eq by done;
    (destruct (is_next_page soup);
     [|intros [= <- <-]; apply evolves_refl]); [done|].
  cbv zeta.
  match goal with
  | |- context [page_started W ?m ?u st] =>
      pose proof (evolves_page_started W st m u) as Hev
  end.
  destruct (http_get W _) as [resp|]; [|by intros [= <- <-]].
  destruct (get_single_page_quotes W _ _) as [[qs|e] st2] eqn:Hqs;
    apply mapM_quote_evolves in Hqs as [Hev' _].
  - intros Hloop. apply IH in Hloop; [|lia].
    eauto using evolves_trans.
  - intros [= <- <-]. eauto using evolves_trans.
Qed.

Lemma get_quotes_evolves fuel st r st' :
  get_quotes W fuel st = Some (r, st') → evolves W st st'.
Proof.
  rewrite get_quotes_eq. cbv zeta.
  pose proof (evolves_page_started W st "Start parsing Quotes" BASE_URL)
    as Hev.
  destruct (http_get W _) as [resp|]; [|by intros [= <- <-]].
  destruct (get_single_page_quotes W _ _) as [[qs|e] st2] eqn:Hqs;
    apply mapM_quote_evolves in Hqs as [Hev' _].
  - intros Hloop. apply get_quotes_loop_evolves in Hloop; [|lia].
    eauto using evolves_trans.
  - intros [= <- <-]. eauto using evolves_trans.
Qed.

(** What a returning loop has done: it has followed the chain of pages
    from the current one to its end. *)
Lemma get_quotes_loop_Return fuel soup page_num all_quotes st qs st' :
  1 ≤ page_num →
  listing_page W page_num = Some soup →
  get_quotes_loop W fuel soup page_num all_quotes st
    = Some (Return qs, st') →
  ∃ pages new,
    chain W page_num (soup :: pages) ∧
    qs = all_quotes ++ new ∧
    Forall2 (λ c q, quote_of c = Some q) (containers pages) new ∧
    Forall (λ q, author q ∈ dict_keys (AUTHOR_CACHE st')) new ∧
    fetched_by InGetQuotes st' =
      fetched_by InGetQuotes st ++ listing_urls W (page_num + 1) (length pages).
Proof.
  revert soup page_num all_quotes st.
  induction fuel as [|fuel IH]; intros soup k acc st Hk Hpage;
    rewrite get_quotes_loop_eq by done;
    (destruct (is_next_page soup) eqn:Hnext;
     [|intros [= <- <-]; exists [], []; rewrite !app_nil_r;
       split_and!; try done; by apply chain_last]); [done|].
  cbv zeta.
  destruct (http_get W (listing_url W (k + 1))) as [resp|] eqn:Hget; [|done].
  destruct (get_single_page_quotes W _ _) as [[qs1|e] st2] eqn:Hqs; [|done].
  intros Hloop.
  assert (Hev := Hloop). apply get_quotes_loop_evolves in Hev; [|lia].
  apply IH in Hloop as (pages & new & Hchain & -> & HF2 & HF & Hf');
    [|lia|by unfold listing_page; rewrite Hget].
  pose proof (mapM_quote_evolves _ _ _ _ Hqs) as [_ Hf1].
  apply mapM_quote_Return in Hqs as [HF2' HF'].
  exists (BeautifulSoup (content resp) :: pages), (qs1 ++ new).
  split_and!.
  - by apply chain_next.
  - by rewrite app_assoc.
  - unfold containers in *. simpl. by apply Forall2_app.
  - apply Forall_app. split; [|done].
    eapply Forall_impl; [exact HF'|]. intros q. by apply (evolves_keys W).
  - rewrite Hf', Hf1, page_started_listing. simpl.
    by rewrite <- app_assoc.
Qed.

Lemma get_quotes_Return fuel st qs st' :
  get_quotes W fuel st = Some (Return qs, st') →
  ∃ pages,
    chain W 1 pages ∧
    Forall2 (λ c q, quote_of c = Some q) (containers pages) qs ∧
    Forall (λ q, author q ∈ dict_keys (AUTHOR_CACHE st')) qs ∧
    fetched_by InGetQuotes st' =
      fetched_by InGetQuotes st ++ listing_urls W 1 (length pages).
Proof.
  rewrite get_quotes_eq. cbv zeta.
  destruct (http_get W BASE_URL) as [resp|] eqn:Hget; [|done].
  destruct (get_single_page_quotes W _ _) as [[qs1|e] st2] eqn:Hqs; [|done].
  intros Hloop.
  assert (Hev := Hloop). apply get_quotes_loop_evolves in Hev; [|lia].
  apply get_quotes_loop_Return in Hloop
      as (pages & new & Hchain & -> & HF2 & HF & Hf');
    [|lia|by unfold listing_page, listing_url; simpl; rewrite Hget].
  pose proof (mapM_quote_evolves _ _ _ _ Hqs) as [_ Hf1].
  apply mapM_quote_Return in Hqs as [HF2' HF'].
  exists (BeautifulSoup (content resp) :: pages). split_and!.
  - done.
  - unfold containers in *. simpl. by apply Forall2_app.
  - apply Forall_app. split; [|done].
    eapply Forall_impl; [exact HF'|]. intros q. by apply (evolves_keys W).
  - rewrite Hf', Hf1, page_started_listing. simpl.
    by rewrite <- app_assoc.
Qed.

Lemma chain_head k soup pages :
  chain W k (soup :: pages) → listing_page W k = Some soup.
Proof. by inversion 1. Qed.

Lemma chain_functional k pages1 pages2 :
  chain W k pages1 → chain W k pages2 → pages1 = pages2.
Proof.
  intros H1. revert pages2.
  induction H1 as [k s Hs Hn|k s pages Hs Hn H1 IH]; intros pages2 H2;
    inversion H2 as [k' s' Hs' Hn'|k' s' pages' Hs' Hn' H2']; subst;
    try congruence.
  assert (s' = s) as -> by congruence. f_equal. by apply IH.
Qed.

(** Along a finite chain the loop ends within as many turns as there are
    pages left, having requested a run of consecutive listing pages. *)
Lemma get_quotes_loop_chain pages fuel soup page_num all_quotes st :
  1 ≤ page_num →
  chain W page_num (soup :: pages) →
  (length pages ≤ fuel)%nat →
  ∃ r st' n,
    get_quotes_loop W fuel soup page_num all_quotes st = Some (r, st') ∧
    (n ≤ length pages)%nat ∧
    fetched_by InGetQuotes st' =
      fetched_by InGetQuotes st ++ listing_urls W (page_num + 1) n ∧
    (∀ qs, r = Return qs → n = length pages) ∧
    (Forall (λ c, has_required c = true ∧ resolvable W c) (containers pages) →
     ∃ qs, r = Return qs).
Proof.
  revert fuel soup page_num all_quotes st.
  induction pages as [|p pages IH]; intros fuel soup k acc st Hk Hchain Hfuel;
    rewrite get_quotes_loop_eq by done.
  - inversion Hchain as [k' s' Hs Hn|k' s' pages' Hs Hn Hrest]; subst;
      [|by inversion Hrest].
    rewrite Hn. exists (Return acc), st, 0%nat.
    split_and!; first [done|by rewrite app_nil_r|eauto].
  - inversion Hchain as [|k' s' pages' Hs Hn Hrest]; subst.
    rewrite Hn. destruct fuel as [|fuel]; [simpl in Hfuel; lia|].
    simpl in Hfuel. cbn zeta.
    pose proof (chain_head _ _ _ Hrest) as Hp. unfold listing_page in Hp.
    destruct (http_get W (listing_url W (k + 1))) as [resp|]; [|done].
    injection Hp as Hp. rewrite Hp.
    destruct (get_single_page_quotes W p _) as [[qs1|e] st2] eqn:Hqs.
    + pose proof (mapM_quote_evolves _ _ _ _ Hqs) as [_ Hf1].
      destruct (IH fuel p (k + 1) (acc ++ qs1) st2)
        as (r & st' & n & -> & Hn' & Hf' & Hret & Hgood); [lia|done|lia|].
      exists r, st', (S n). split_and!; [done|simpl; lia| | |].
      * rewrite Hf', Hf1, page_started_listing. simpl.
        by rewrite <- app_assoc.
      * intros qs Hr. simpl. f_equal. eauto.
      * unfold containers in *. simpl. intros [_ ?]%Forall_app. eauto.
    + pose proof (mapM_quote_evolves _ _ _ _ Hqs) as [_ Hf1].
      exists (Raise e), st2, 1%nat. split_and!; [done|simpl; lia| |done|].
      * by rewrite Hf1, page_started_listing.
      * unfold containers. simpl. intros [Hgood _]%Forall_app.
        rewrite get_single_page_quotes_eq in Hqs.
        match type of Hqs with
        | _ ?s = _ =>
            destruct (mapM_quote_resolvable _ s Hgood) as (qs & st3 & Hqs')
        end.
        congruence.
Qed.

Lemma get_quotes_chain pages fuel st :
  chain W 1 pages →
  (length pages ≤ S fuel)%nat →
  ∃ r st' n,
    get_quotes W fuel st = Some (r, st') ∧
    (1 ≤ n ≤ length pages)%nat ∧
    fetched_by InGetQuotes st' =
      fetched_by InGetQuotes st ++ listing_urls W 1 n ∧
    (∀ qs, r = Return qs → n = length pages) ∧
    (Forall (λ c, has_required c = true ∧ resolvable W c) (containers pages) →
     ∃ qs, r = Return qs).
Proof.
  intros Hchain Hfuel. rewrite get_quotes_eq. cbn zeta.
  destruct pages as [|p pages]; [by inversion Hchain|].
  pose proof (chain_head _ _ _ Hchain) as Hp.
  unfold listing_page, listing_url in Hp. simpl in Hp.
  destruct (http_get W BASE_URL) as [resp|]; [|done].
  injection Hp as Hp. rewrite Hp.
  destruct (get_single_page_quotes W p _) as [[qs1|e] st2] eqn:Hqs.
  - pose proof (mapM_quote_evolves _ _ _ _ Hqs) as [_ Hf1].
    destruct (get_quotes_loop_chain pages fuel p 1 qs1 st2)
      as (r & st' & n & -> & Hn' & Hf' & Hret & Hgood);
      [lia|done|simpl in Hfuel; lia|].
    exists r, st', (S n). split_and!; [done|lia|simpl; lia| | |].
    + rewrite Hf', Hf1, page_started_listing. simpl.
      by rewrite <- app_assoc.
    + intros qs Hr. simpl. f_equal. eauto.
    + unfold containers in *. simpl. intros [_ ?]%Forall_app. eauto.
  - pose proof (mapM_quote_evolves _ _ _ _ Hqs) as [_ Hf1].
    exists (Raise e), st2, 1%nat.
    split_and!; [done|lia|simpl; lia| |done|].
    + by rewrite Hf1, page_started_listing.
    + unfold containers. simpl. intros [Hgood _]%Forall_app.
      rewrite get_single_page_quotes_eq in Hqs.
      match type of Hqs with
      | _ ?s = _ =>
          destruct (mapM_quote_resolvable _ s Hgood) as (qs & st3 & Hqs')
      end.
      congruence.
Qed.

(** More fuel does not change what a finished walk has done. *)
Lemma get_quotes_loop_fuel fuel fuel' soup page_num all_quotes st x :
  (fuel ≤ fuel')%nat →
  get_quotes_loop W fuel soup page_num all_quotes st = Some x →
  get_quotes_loop W fuel' soup page_num all_quotes st = Some x.
Proof.
  revert fuel' soup page_num all_quotes st.
  induction fuel as [|fuel IH]; intros fuel' soup k acc st Hle;
    destruct fuel' as [|fuel']; try lia; simpl;
    destruct (is_next_page soup); try done.
  match goal with
  | |- context [mbind ?f ?m st] => destruct (mbind f m st) as [[[s qs]|e] st1]
  end; [|done].
  apply IH. lia.
Qed.

Lemma get_quotes_fuel fuel fuel' st x :
  (fuel ≤ fuel')%nat →
  get_quotes W fuel st = Some x → get_quotes W fuel' st = Some x.
Proof.
  intros Hle. unfold get_quotes.
  match goal with
  | |- context [mbind ?f ?m st] => destruct (mbind f m st) as [[[s qs]|e] st1]
  end; [|done].
  by apply get_quotes_loop_fuel.
Qed.

(** *** [main] *)

Lemma main_eq fuel output_csv_path st :
  main W fuel output_csv_path st =
  match get_quotes W fuel st with
  | None => None
  | Some (Raise e, st1) => Some (Raise e, st1)
  | Some (Return quotes, st1) =>
      if writable W (realpath W output_csv_path) then
        let st2 :=
          mkState (AUTHOR_CACHE st1) (requests st1) (log st1)
            (<[realpath W output_csv_path :=
                 (CStr <$> QUOTE_FIELDS) :: (astuple_quote <$> quotes)]>
               (files st1)) in
        if writable W (realpath W "author.csv") then
          Some (Return tt,
                mkState (AUTHOR_CACHE st1) (requests st1) (log st1)
                  (<[realpath W "author.csv" :=
                       (CStr <$> AUTHOR_FIELDS)
                       :: (astuple_author <$> dict_values (AUTHOR_CACHE st1))]>
                     (files st2)))
        else Some (Raise (OSError "author.csv"), st2)
      else Some (Raise (OSError output_csv_path), st1)
  end.
Proof.
  unfold main. destruct (get_quotes W fuel st) as [[[qs|e] st1]|]; try done.
  unfold_M. unfold write_quotes_to_csv, write_author_to_csv, write_csv.
  destruct (writable W (realpath W output_csv_path)); [|done]. simpl.
  by destruct (writable W (realpath W "author.csv")).
Qed.

(** A run completes when the chain of listing pages is finite, no container
    lacks a node or a resolvable author, and both files can be opened. *)
Lemma main_completes pages fuel output_csv_path st :
  chain W 1 pages →
  (length pages ≤ S fuel)%nat →
  Forall (λ c, has_required c = true ∧ resolvable W c) (containers pages) →
  writable W (realpath W output_csv_path) = true →
  writable W (realpath W "author.csv") = true →
  ∃ st', main W fuel output_csv_path st = Some (Return tt, st').
Proof.
  intros Hchain Hfuel Hgood Hw1 Hw2. rewrite main_eq.
  destruct (get_quotes_chain pages fuel st Hchain Hfuel)
    as (r & st1 & n & -> & _ & _ & _ & Hret).
  destruct (Hret Hgood) as [qs ->]. rewrite Hw1, Hw2. eauto.
Qed.

End Proofs.

(** ** The walk as a sequence of page blocks *)

Section Walk.
Context (W : World).

(** A property of the returning walk follows from two facts: it holds of
    the walk that does nothing, and it is kept when a page block (a log
    record, a listing request, the extraction of the page) is put in
    front. *)
Lemma get_quotes_loop_Return_rel (R : State → State → list Quote → Prop) :
  (∀ st, R st st []) →
  (∀ st msg url r qs st2 qs' st3,
     http_get W url = Some r →
     mapM (parse_single_quote W) (select (BeautifulSoup (content r)) ".quote")
       (page_started W msg url st) = (Return qs, st2) →
     R st2 st3 qs' → R st st3 (qs ++ qs')) →
  ∀ fuel soup page_num all_quotes st quotes st',
    1 ≤ page_num →
    get_quotes_loop W fuel soup page_num all_quotes st
      = Some (Return quotes, st') →
    ∃ new, quotes = all_quotes ++ new ∧ R st st' new.
Proof.
  intros Hnil Hblock.
  induction fuel as [|fuel IH]; intros soup k acc st qs st' Hk;
    rewrite get_quotes_loop_eq by done;
    (destruct (is_next_page soup);
     [|intros [= <- <-]; exists []; by rewrite app_nil_r]); [done|].
  cbv zeta.
  destruct (http_get W (listing_url W (k + 1))) as [resp|] eqn:Hget; [|done].
  destruct (get_single_page_quotes W _ _) as [[qs1|e] st2] eqn:Hqs; [|done].
  intros Hloop. apply IH in Hloop as (new & -> & HR); [|lia].
  exists (qs1 ++ new). split; [by rewrite app_assoc|]. eauto.
Qed.

Lemma get_quotes_Return_rel (R : State → State → list Quote → Prop) :
  (∀ st, R st st []) →
  (∀ st msg url r qs st2 qs' st3,
     http_get W url = Some r →
     mapM (parse_single_quote W) (select (BeautifulSoup (content r)) ".quote")
       (page_started W msg url st) = (Return qs, st2) →
     R st2 st3 qs' → R st st3 (qs ++ qs')) →
  ∀ fuel st quotes st',
    get_quotes W fuel st = Some (Return quotes, st') → R st st' quotes.
Proof.
  intros Hnil Hblock fuel st qs st'. rewrite get_quotes_eq. cbv zeta.
  destruct (http_get W BASE_URL) as [resp|] eqn:Hget; [|done].
  destruct (get_single_page_quotes W _ _) as [[qs1|e] st2] eqn:Hqs; [|done].
  intros Hloop.
  apply (get_quotes_loop_Return_rel R Hnil Hblock) in Hloop
      as (new & -> & HR); [|lia].
  eauto.
Qed.

(** A property of the walk, whatever its outcome, follows from three
    facts: it holds of the walk that does nothing; when a page block is put
    in front of a walk; and of a page block that raises, be it at the
    request or in the extraction. *)
Lemma get_quotes_loop_rel (R : State → option Exception → State → Prop) :
  (∀ st, R st None st) →
  (∀ st msg url r qs st2 oe st3,
     http_get W url = Some r →
     mapM (parse_single_quote W) (select (BeautifulSoup (content r)) ".quote")
       (page_started W msg url st) = (Return qs, st2) →
     R st2 oe st3 → R st oe st3) →
  (∀ st msg url,
     http_get W url = None →
     R st (Some (ConnectionError url)) (page_started W msg url st)) →
  (∀ st msg url r e st2,
     http_get W url = Some r →
     mapM (parse_single_quote W) (select (BeautifulSoup (content r)) ".quote")
       (page_started W msg url st) = (Raise e, st2) →
     R st (Some e) st2) →
  ∀ fuel soup page_num all_quotes st r st',
    1 ≤ page_num →
    get_quotes_loop W fuel soup page_num all_quotes st = Some (r, st') →
    R st (raised r) st'.
Proof.
  intros Hnil Hblock Hnone Hraise.
  induction fuel as [|fuel IH]; intros soup k acc st r st' Hk;
    rewrite get_quotes_loop_eq by done;
    (destruct (is_next_page soup);
     [|intros [= <- <-]; apply Hnil]); [done|].
  cbv zeta.
  destruct (http_get W (listing_url W (k + 1))) as [resp|] eqn:Hget;
    [|intros [= <- <-]; by apply Hnone].
  destruct (get_single_page_quotes W _ _) as [[qs1|e] st2] eqn:Hqs.
  - intros Hloop. apply IH in Hloop; [|lia]. eauto.
  - intros [= <- <-]. eauto.
Qed.

Lemma get_quotes_rel (R : State → option Exception → State → Prop) :
  (∀ st, R st None st) →
  (∀ st msg url r qs st2 oe st3,
     http_get W url = Some r →
     mapM (parse_single_quote W) (select (BeautifulSoup (content r)) ".quote")
       (page_started W msg url st) = (Return qs, st2) →
     R st2 oe st3 → R st oe st3) →
  (∀ st msg url,
     http_get W url = None →
     R st (Some (ConnectionError url)) (page_started W msg url st)) →
  (∀ st msg url r e st2,
     http_get W url = Some r →
     mapM (parse_single_quote W) (select (BeautifulSoup (content r)) ".quote")
       (page_started W msg url st) = (Raise e, st2) →
     R st (Some e) st2) →
  ∀ fuel st r st',
    get_quotes W fuel st = Some (r, st') → R st (raised r) st'.
Proof.
  intros Hnil Hblock Hnone Hraise fuel st r st'.
  rewrite get_quotes_eq. cbv zeta.
  destruct (http_get W BASE_URL) as [resp|] eqn:Hget;
    [|intros [= <- <-]; by apply Hnone].
  destruct (get_single_page_quotes W _ _) as [[qs1|e] st2] eqn:Hqs.
  - intros Hloop.
    apply (get_quotes_loop_rel R Hnil Hblock Hnone Hraise) in Hloop; [|lia].
    eauto.
  - intros [= <- <-]. eauto.
Qed.

(** *** The order of the cache *)

Lemma parse_single_author_keys author_name author_url st st' :
  parse_single_author W author_name author_url st = (Return tt, st') →
  dict_keys (AUTHOR_CACHE st') =
  first_seen (dict_keys (AUTHOR_CACHE st)) [author_name].
Proof.
  unfold first_seen. simpl.
  destruct (dict_contains author_name (AUTHOR_CACHE st)) eqn:Hc.
  - rewrite parse_single_author_hit by done. intros [= <-]. simpl.
    apply dict_contains_true in Hc. by rewrite bool_decide_eq_true_2.
  - rewrite parse_single_author_miss by done. cbv zeta.
    destruct (http_get W _) as [resp|];
      [destruct (author_of_page _) as [a|]|]; intros [= <-]. simpl.
    apply dict_contains_false in Hc. rewrite bool_decide_eq_false_2 by done.
    unfold dict_keys. by rewrite fmap_app.
Qed.

Lemma parse_single_quote_keys quote_soup st q st' :
  parse_single_quote W quote_soup st = (Return q, st') →
  dict_keys (AUTHOR_CACHE st') =
  first_seen (dict_keys (AUTHOR_CACHE st)) [author q].
Proof.
  rewrite parse_single_quote_eq.
  destruct (select_one quote_soup ".author") as [a|]; [|done].
  pose proof (getitem_href quote_soup st) as Hh.
  destruct (href_of quote_soup) as [h|];
    [rewrite Hh|by destruct Hh as (e & _ & ->)].
  destruct (parse_single_author W _ _ st) as [[[]|e] st1] eqn:Ha; [|done].
  apply parse_single_author_keys in Ha.
  destruct (select_one quote_soup ".text"); [|done].
  by intros [= <- <-].
Qed.

Lemma first_seen_app keys names1 names2 :
  first_seen keys (names1 ++ names2) =
  first_seen (first_seen keys names1) names2.
Proof. unfold first_seen. by rewrite foldl_app. Qed.

Lemma mapM_quote_keys cs st qs st' :
  mapM (parse_single_quote W) cs st = (Return qs, st') →
  dict_keys (AUTHOR_CACHE st') =
  first_seen (dict_keys (AUTHOR_CACHE st)) (author <$> qs).
Proof.
  revert st qs st'. induction cs as [|c cs IH]; intros st qs st'; simpl.
  - by intros [= <- <-].
  - unfold_M.
    destruct (parse_single_quote W c st) as [[q|e] st1] eqn:Hq; [|done].
    destruct (mapM _ cs st1) as [[qs'|e] st2] eqn:Hqs; [|done].
    intros [= <- <-]. apply parse_single_quote_keys in Hq.
    apply IH in Hqs. rewrite Hqs, Hq. by rewrite fmap_cons.
Qed.

Lemma get_quotes_keys fuel st quotes st' :
  get_quotes W fuel st = Some (Return quotes, st') →
  dict_keys (AUTHOR_CACHE st') =
  first_seen (dict_keys (AUTHOR_CACHE st)) (author <$> quotes).
Proof.
  revert fuel st quotes st'.
  apply (get_quotes_Return_rel
    (λ st st' quotes,
      dict_keys (AUTHOR_CACHE st') =
      first_seen (dict_keys (AUTHOR_CACHE st)) (author <$> quotes))).
  - done.
  - intros st msg url r qs st2 qs' st3 _ Hqs HR.
    apply mapM_quote_keys in Hqs. simpl in Hqs.
    by rewrite fmap_app, first_seen_app, <- Hqs.
Qed.

(** *** What the requests tell about the outcome *)

Ltac trace_nil :=
  first [ done
        | by intros ?%Exists_nil
        | by intros [? [=]]
        | by intros ? ? ?%elem_of_nil
        | eauto ].

Lemma traced_refl st : traced W st None st False.
Proof. exists []. rewrite app_nil_r. split_and!; trace_nil. Qed.

Lemma traced_weaken st oe st' (d d' : Prop) :
  (d → d') → traced W st oe st' d → traced W st oe st' d'.
Proof.
  intros Hd (new & Hr & Ht & Hf & Hc). exists new. split_and!; try done.
  intros Hoe. destruct (Hc Hoe); eauto.
Qed.

Lemma traced_then st st1 oe st2 (d1 d : Prop) :
  traced W st None st1 d1 → traced W st1 oe st2 d → traced W st oe st2 d.
Proof.
  intros (new1 & Hr1 & Ht1 & Hf1 & _) (new2 & Hr2 & Ht2 & Hf2 & Hc2).
  exists (new1 ++ new2). split_and!.
  - by rewrite Hr2, Hr1, app_assoc.
  - intros site url [Hin|Hin]%elem_of_app Hnone; [|eauto].
    by specialize (Ht1 _ _ Hin Hnone).
  - intros [H1|H2]%Exists_app; [|eauto].
    by destruct (Hf1 H1) as [? [=]].
  - intros Hoe. destruct (Hc2 Hoe) as [?|?]; [by left|].
    right. apply Exists_app. by right.
Qed.

Lemma traced_single st oe st' rq :
  requests st' = requests st ++ [rq] →
  (http_get W rq.2 = None → oe = Some (ConnectionError rq.2)) →
  (request_fails W rq ↔ is_Some oe) →
  traced W st oe st' False.
Proof.
  intros Hr Ht Hf. exists [rq]. split_and!; [done| | |].
  - intros site url Heq%list_elem_of_singleton. subst rq. apply Ht.
  - intros [?|?%Exists_nil]%Exists_cons; [by apply Hf|done].
  - intros Hoe. right. apply Exists_cons_hd. by apply Hf.
Qed.

Lemma parse_single_author_traced author_name author_url st r st' :
  parse_single_author W author_name author_url st = (r, st') →
  traced W st (raised r) st' False.
Proof.
  destruct (dict_contains author_name (AUTHOR_CACHE st)) eqn:Hc.
  - rewrite parse_single_author_hit by done. intros [= <- <-].
    exists []. simpl. rewrite app_nil_r. split_and!; trace_nil.
  - rewrite parse_single_author_miss by done. cbv zeta.
    destruct (http_get W (urljoin W BASE_URL author_url)) as [resp|] eqn:Hget;
      [destruct (author_of_page _) as [a|] eqn:Hpage|]; intros [= <- <-];
      (eapply traced_single; [done| |]); simpl;
      unfold request_fails; simpl; rewrite Hget; try rewrite Hpage;
      try done; split; try done; eauto; by intros [? [=]].
Qed.

Lemma traced_defect st e (d : Prop) : d → traced W st (Some e) st d.
Proof.
  intros Hd. exists []. rewrite app_nil_r. split_and!; trace_nil.
Qed.

Lemma parse_single_quote_traced quote_soup st r st' :
  parse_single_quote W quote_soup st = (r, st') →
  traced W st (raised r) st' (has_required quote_soup = false).
Proof.
  rewrite parse_single_quote_eq.
  unfold has_required, has_author_name, has_author_link, has_text.
  destruct (select_one quote_soup ".author") as [a|];
    [|intros [= <- <-]; by apply traced_defect].
  pose proof (getitem_href quote_soup st) as Hh.
  destruct (href_of quote_soup) as [h|];
    [rewrite Hh
    |destruct Hh as (e & _ & ->); intros [= <- <-]; apply traced_defect;
     rewrite bool_decide_eq_true_2 by eauto;
     by rewrite (bool_decide_eq_false_2 (is_Some None)) by by intros [? [=]]].
  destruct (parse_single_author W _ _ st) as [[[]|e] st1] eqn:Ha;
    apply parse_single_author_traced in Ha.
  - destruct (select_one quote_soup ".text") as [t|]; intros [= <- <-].
    + eapply traced_weaken; [|exact Ha]. done.
    + eapply traced_then; [exact Ha|]. apply traced_defect.
      rewrite !bool_decide_eq_true_2 by eauto.
      by rewrite (bool_decide_eq_false_2 (is_Some None)) by by intros [? [=]].
  - intros [= <- <-]. eapply traced_weaken; [|exact Ha]. done.
Qed.

Lemma mapM_quote_traced cs st r st' :
  mapM (parse_single_quote W) cs st = (r, st') →
  traced W st (raised r) st' (Exists (λ c, has_required c = false) cs).
Proof.
  revert st r st'. induction cs as [|c cs IH]; intros st r st'; simpl.
  - intros [= <- <-]. eapply traced_weaken; [|apply traced_refl]. done.
  - unfold_M.
    destruct (parse_single_quote W c st) as [[q|e] st1] eqn:Hq;
      apply parse_single_quote_traced in Hq.
    + destruct (mapM _ cs st1) as [[qs|e] st2] eqn:Hqs;
        apply IH in Hqs; intros [= <- <-];
        (eapply traced_then; [exact Hq|]);
        (eapply traced_weaken; [|exact Hqs]); intros ?; by apply Exists_cons_tl.
    + intros [= <- <-]. eapply traced_weaken; [|exact Hq].
      intros ?. by apply Exists_cons_hd.
Qed.

(** A page block: the listing request and the extraction of the page. *)
Lemma page_block_traced msg url st resp r st' :
  http_get W url = Some resp →
  mapM (parse_single_quote W) (select (BeautifulSoup (content resp)) ".quote")
    (page_started W msg url st) = (r, st') →
  traced W st (raised r) st' False.
Proof.
  intros Hget Hrun.
  pose proof (mapM_quote_traced _ _ _ _ Hrun) as (new & Hr & Ht & Hf & Hc).
  exists ((InGetQuotes, url) :: new). split_and!.
  - rewrite Hr. unfold page_started. simpl. by rewrite <- app_assoc.
  - intros site u [[= -> ->]|Hin]%elem_of_cons Hnone; [congruence|eauto].
  - intros [Hhd|Htl]%Exists_cons; [|eauto].
    unfold request_fails in Hhd. simpl in Hhd. rewrite Hget in Hhd.
    destruct (mapM_quote_missing W _ (page_started W msg url st) Hhd)
      as (e & st2 & Hraise).
    rewrite Hrun in Hraise. injection Hraise as -> ->. eauto.
  - intros Hoe. right. destruct (Hc Hoe) as [Hd|Hex].
    + apply Exists_cons_hd. unfold request_fails. simpl. by rewrite Hget.
    + by apply Exists_cons_tl.
Qed.

Lemma page_request_traced msg url st :
  http_get W url = None →
  traced W st (Some (ConnectionError url)) (page_started W msg url st) False.
Proof.
  intros Hget. eapply traced_single; [done|done|].
  unfold request_fails. simpl. rewrite Hget. split; eauto.
Qed.

Lemma get_quotes_traced fuel st r st' :
  get_quotes W fuel st = Some (r, st') → traced W st (raised r) st' False.
Proof.
  revert fuel st r st'.
  apply (get_quotes_rel (λ st oe st', traced W st oe st' False)).
  - apply traced_refl.
  - intros st msg url r qs st2 oe st3 Hget Hqs HR.
    eapply traced_then; [|exact HR].
    by apply (page_block_traced msg url st r (Return qs) st2).
  - intros st msg url Hget. by apply page_request_traced.
  - intros st msg url r e st2 Hget Hqs.
    by apply (page_block_traced msg url st r (Raise e) st2).
Qed.

Lemma traced_sent_since st oe st' d :
  traced W st oe st' d →
  requests st' = requests st ++ sent_since st st' ∧
  (∀ site url, (site, url) ∈ sent_since st st' → http_get W url = None →
               oe = Some (ConnectionError url)) ∧
  (Exists (request_fails W) (sent_since st st') → is_Some oe) ∧
  (is_Some oe → d ∨ Exists (request_fails W) (sent_since st st')).
Proof.
  intros (new & Hr & Ht & Hf & Hc). unfold sent_since.
  by rewrite Hr, drop_app_length.
Qed.

(** *** What the profile requests tell about the cache *)

Lemma recorded_refl st : recorded W st st.
Proof. exists [], []. by rewrite !app_nil_r. Qed.

Lemma recorded_trans st1 st2 st3 :
  recorded W st1 st2 → recorded W st2 st3 → recorded W st1 st3.
Proof.
  intros (u1 & e1 & Hf1 & Hc1 & Hr1) (u2 & e2 & Hf2 & Hc2 & Hr2).
  exists (u1 ++ u2), (e1 ++ e2). split_and!.
  - by rewrite Hf2, Hf1, app_assoc.
  - by rewrite Hc2, Hc1, app_assoc.
  - by rewrite fmap_app, omap_app, Hr1, Hr2.
Qed.

Lemma parse_single_author_recorded author_name author_url st r st' :
  parse_single_author W author_name author_url st = (r, st') →
  recorded W st st'.
Proof.
  destruct (dict_contains author_name (AUTHOR_CACHE st)) eqn:Hc.
  - rewrite parse_single_author_hit by done. intros [= <- <-].
    exists [], []. by rewrite !app_nil_r.
  - rewrite parse_single_author_miss by done. cbv zeta.
    destruct (http_get W (urljoin W BASE_URL author_url)) as [resp|] eqn:Hget;
      [destruct (author_of_page _) as [a|] eqn:Hpage|]; intros [= <- <-].
    + exists [urljoin W BASE_URL author_url], [(author_name, a)].
      split_and!; [|done|].
      * unfold fetched_by. simpl. by rewrite filter_app, fmap_app.
      * simpl. unfold profile_record. by rewrite Hget, Hpage.
    + exists [urljoin W BASE_URL author_url], []. split_and!.
      * unfold fetched_by. simpl. by rewrite filter_app, fmap_app.
      * by rewrite app_nil_r.
      * simpl. unfold profile_record. by rewrite Hget, Hpage.
    + exists [urljoin W BASE_URL author_url], []. split_and!.
      * unfold fetched_by. simpl. by rewrite filter_app, fmap_app.
      * by rewrite app_nil_r.
      * simpl. unfold profile_record. by rewrite Hget.
Qed.

Lemma parse_single_quote_recorded quote_soup st r st' :
  parse_single_quote W quote_soup st = (r, st') → recorded W st st'.
Proof.
  rewrite parse_single_quote_eq.
  destruct (select_one quote_soup ".author") as [a|];
    [|intros [= <- <-]; apply recorded_refl].
  pose proof (getitem_href quote_soup st) as Hh.
  destruct (href_of quote_soup) as [h|];
    [rewrite Hh|destruct Hh as (e & _ & ->); intros [= <- <-];
                apply recorded_refl].
  destruct (parse_single_author W _ _ st) as [[[]|e] st1] eqn:Ha;
    apply parse_single_author_recorded in Ha.
  - by destruct (select_one quote_soup ".text"); intros [= <- <-].
  - by intros [= <- <-].
Qed.

Lemma mapM_quote_recorded cs st r st' :
  mapM (parse_single_quote W) cs st = (r, st') → recorded W st st'.
Proof.
  revert st r st'. induction cs as [|c cs IH]; intros st r st'; simpl.
  - intros [= <- <-]. apply recorded_refl.
  - unfold_M.
    destruct (parse_single_quote W c st) as [[q|e] st1] eqn:Hq;
      apply parse_single_quote_recorded in Hq.
    + destruct (mapM _ cs st1) as [[qs|e] st2] eqn:Hqs;
        apply IH in Hqs; intros [= <- <-]; by eapply recorded_trans.
    + by intros [= <- <-].
Qed.

Lemma page_started_recorded msg url st :
  recorded W st (page_started W msg url st).
Proof.
  exists [], []. rewrite page_started_profile. by rewrite !app_nil_r.
Qed.

Lemma get_quotes_recorded fuel st r st' :
  get_quotes W fuel st = Some (r, st') → recorded W st st'.
Proof.
  revert fuel st r st'.
  apply (get_quotes_rel (λ st _ st', recorded W st st')).
  - apply recorded_refl.
  - intros st msg url r qs st2 oe st3 _ Hqs HR.
    apply mapM_quote_recorded in Hqs.
    eapply recorded_trans; [|exact HR].
    eapply recorded_trans; [|exact Hqs]. apply page_started_recorded.
  - intros st msg url _. apply page_started_recorded.
  - intros st msg url r e st2 _ Hqs. apply mapM_quote_recorded in Hqs.
    eapply recorded_trans; [|exact Hqs]. apply page_started_recorded.
Qed.

(** In a statement that returns, every profile request was served complete:
    the requests and the new entries are as many. *)
Lemma parse_single_author_counts author_name author_url st st' :
  parse_single_author W author_name author_url st = (Return tt, st') →
  (length (fetched_by InParseSingleAuthor st') + length (AUTHOR_CACHE st) =
   length (fetched_by InParseSingleAuthor st) + length (AUTHOR_CACHE st'))%nat.
Proof.
  destruct (dict_contains author_name (AUTHOR_CACHE st)) eqn:Hc.
  - rewrite parse_single_author_hit by done. intros [= <-].
    unfold fetched_by. simpl. lia.
  - rewrite parse_single_author_miss by done. cbv zeta.
    destruct (http_get W _) as [resp|];
      [destruct (author_of_page _) as [a|]|]; intros [= <-].
    unfold fetched_by. simpl.
    rewrite filter_app, fmap_app, !length_app. simpl. lia.
Qed.

Lemma parse_single_quote_counts quote_soup st q st' :
  parse_single_quote W quote_soup st = (Return q, st') →
  (length (fetched_by InParseSingleAuthor st') + length (AUTHOR_CACHE st) =
   length (fetched_by InParseSingleAuthor st) + length (AUTHOR_CACHE st'))%nat.
Proof.
  rewrite parse_single_quote_eq.
  destruct (select_one quote_soup ".author") as [a|]; [|done].
  pose proof (getitem_href quote_soup st) as Hh.
  destruct (href_of quote_soup) as [h|];
    [rewrite Hh|by destruct Hh as (e & _ & ->)].
  destruct (parse_single_author W _ _ st) as [[[]|e] st1] eqn:Ha; [|done].
  apply parse_single_author_counts in Ha.
  destruct (select_one quote_soup ".text"); [|done].
  by intros [= <- <-].
Qed.

Lemma mapM_quote_counts cs st qs st' :
  mapM (parse_single_quote W) cs st = (Return qs, st') →
  (length (fetched_by InParseSingleAuthor st') + length (AUTHOR_CACHE st) =
   length (fetched_by InParseSingleAuthor st) + length (AUTHOR_CACHE st'))%nat.
Proof.
  revert st qs st'. induction cs as [|c cs IH]; intros st qs st'; simpl.
  - intros [= <- <-]. lia.
  - unfold_M.
    destruct (parse_single_quote W c st) as [[q|e] st1] eqn:Hq; [|done].
    destruct (mapM _ cs st1) as [[qs'|e] st2] eqn:Hqs; [|done].
    intros [= <- <-]. apply parse_single_quote_counts in Hq.
    apply IH in Hqs. lia.
Qed.

(** *** Walking the site a second time *)

Lemma parse_single_quote_cached quote_soup q st :
  quote_of quote_soup = Some q →
  author q ∈ dict_keys (AUTHOR_CACHE st) →
  parse_single_quote W quote_soup st =
    (Return q,
     mkState (AUTHOR_CACHE st) (requests st)
       (log st ++ ["Getting author " +:+ author q +:+ " from cache"])
       (append_line (realpath W LOG_FILE)
          (log_record ("Getting author " +:+ author q +:+ " from cache"))
          (files st))).
Proof.
  unfold quote_of. rewrite parse_single_quote_eq.
  destruct (select_one quote_soup ".author") as [a|]; [|done].
  pose proof (getitem_href quote_soup st) as Hh.
  destruct (href_of quote_soup) as [h|]; [rewrite Hh|done].
  destruct (select_one quote_soup ".text") as [t|]; [|done].
  intros [= <-]. simpl. intros Hin.
  by rewrite parse_single_author_hit by by apply dict_contains_true.
Qed.

Lemma mapM_quote_cached cs qs st :
  Forall2 (λ c q, quote_of c = Some q) cs qs →
  Forall (λ q, author q ∈ dict_keys (AUTHOR_CACHE st)) qs →
  ∃ st', mapM (parse_single_quote W) cs st = (Return qs, st') ∧
         AUTHOR_CACHE st' = AUTHOR_CACHE st ∧
         requests st' = requests st.
Proof.
  intros HF2. revert st.
  induction HF2 as [|c q cs qs Hq _ IH]; intros st Hin; simpl.
  - eauto.
  - apply Forall_cons in Hin as [Hq1 Hin]. unfold_M.
    rewrite (parse_single_quote_cached c q st Hq Hq1).
    edestruct IH as (st' & -> & Hc & Hr); [exact Hin|].
    eexists. split; [done|]. by rewrite Hc, Hr.
Qed.

Lemma get_quotes_loop_rerun fuel soup page_num all_quotes st quotes st1 :
  1 ≤ page_num →
  get_quotes_loop W fuel soup page_num all_quotes st
    = Some (Return quotes, st1) →
  ∀ all_quotes' st2,
    (∀ n, n ∈ dict_keys (AUTHOR_CACHE st1) →
          n ∈ dict_keys (AUTHOR_CACHE st2)) →
    ∃ new st3,
      quotes = all_quotes ++ new ∧
      get_quotes_loop W fuel soup page_num all_quotes' st2
        = Some (Return (all_quotes' ++ new), st3) ∧
      AUTHOR_CACHE st3 = AUTHOR_CACHE st2 ∧
      fetched_by InParseSingleAuthor st3 = fetched_by InParseSingleAuthor st2.
Proof.
  revert soup page_num all_quotes st.
  induction fuel as [|fuel IH]; intros soup k acc st Hk;
    rewrite get_quotes_loop_eq by done;
    (destruct (is_next_page soup) eqn:Hnext;
     [|intros [= <- <-] acc' st2 _; exists [], st2;
       rewrite get_quotes_loop_eq by done; rewrite Hnext, !app_nil_r;
       done]); [done|].
  cbv zeta.
  destruct (http_get W (listing_url W (k + 1))) as [resp|] eqn:Hget; [|done].
  destruct (get_single_page_quotes W _ _) as [[qs1|e] st_a] eqn:Hqs; [|done].
  intros Hloop acc' st2 Hsub.
  assert (Hev := Hloop). apply get_quotes_loop_evolves in Hev; [|lia].
  apply mapM_quote_Return in Hqs as [HF2 HF].
  rewrite get_quotes_loop_eq by done. rewrite Hnext. cbv zeta. rewrite Hget.
  rewrite get_single_page_quotes_eq.
  match goal with
  | |- context [mapM _ _ ?s] =>
      destruct (mapM_quote_cached _ qs1 s HF2) as (st_b & -> & Hc & Hr)
  end.
  { eapply Forall_impl; [exact HF|]. intros q Hq. simpl.
    apply Hsub. by eapply evolves_keys. }
  simpl in Hc.
  pose proof (λ Hk', IH _ _ _ _ Hk' Hloop (acc' ++ qs1) st_b) as IH'.
  destruct IH' as (new & st3 & -> & -> & Hc3 & Hp3); [lia| |].
  { intros n Hn. rewrite Hc. by apply Hsub. }
  exists (qs1 ++ new), st3. rewrite !app_assoc. split_and!; try done.
  - by rewrite Hc3.
  - rewrite Hp3. unfold fetched_by at 1. rewrite Hr.
    apply page_started_profile.
Qed.

Lemma get_quotes_rerun fuel st quotes st1 :
  get_quotes W fuel st = Some (Return quotes, st1) →
  ∃ st2,
    get_quotes W fuel st1 = Some (Return quotes, st2) ∧
    AUTHOR_CACHE st2 = AUTHOR_CACHE st1 ∧
    fetched_by InParseSingleAuthor st2 = fetched_by InParseSingleAuthor st1.
Proof.
  rewrite !get_quotes_eq. cbv zeta.
  destruct (http_get W BASE_URL) as [resp|] eqn:Hget; [|done].
  destruct (get_single_page_quotes W _ _) as [[qs1|e] st_a] eqn:Hqs; [|done].
  intros Hloop.
  assert (Hev := Hloop). apply get_quotes_loop_evolves in Hev; [|lia].
  apply mapM_quote_Return in Hqs as [HF2 HF].
  rewrite get_single_page_quotes_eq.
  match goal with
  | |- context [mapM _ _ ?s] =>
      destruct (mapM_quote_cached _ qs1 s HF2) as (st_b & -> & Hc & Hr)
  end.
  { eapply Forall_impl; [exact HF|]. intros q Hq. simpl.
    by eapply evolves_keys. }
  simpl in Hc.
  pose proof (λ Hk', get_quotes_loop_rerun _ _ _ _ _ _ _ Hk' Hloop qs1 st_b)
    as Hrerun.
  destruct Hrerun as (new & st3 & -> & -> & Hc3 & Hp3); [lia| |].
  { intros n Hn. by rewrite Hc. }
  exists st3. split_and!; try done.
  - by rewrite Hc3.
  - rewrite Hp3. unfold fetched_by at 1. rewrite Hr.
    apply page_started_profile.
Qed.

(** *** Sites without an end *)

Lemma get_quotes_loop_endless fuel soup page_num all_quotes st :
  (∀ k, 1 ≤ k →
     ∃ r, http_get W (listing_url W k) = Some r ∧
          is_next_page (BeautifulSoup (content r)) = true ∧
          Forall (λ c, has_required c = true ∧ resolvable W c)
            (select (BeautifulSoup (content r)) ".quote")) →
  1 ≤ page_num →
  is_next_page soup = true →
  get_quotes_loop W fuel soup page_num all_quotes st = None.
Proof.
  intros Hsite. revert soup page_num all_quotes st.
  induction fuel as [|fuel IH]; intros soup k acc st Hk Hnext;
    rewrite get_quotes_loop_eq by done; rewrite Hnext; [done|].
  cbv zeta.
  destruct (Hsite (k + 1)) as (r & -> & Hnext' & Hgood); [lia|].
  rewrite get_single_page_quotes_eq.
  match goal with
  | |- context [mapM _ _ ?s] =>
      destruct (mapM_quote_resolvable W _ s Hgood) as (qs & st2 & ->)
  end.
  apply IH; [lia|done].
Qed.

(** *** The status of a response is never read *)

Lemma parse_single_author_status f author_name author_url st :
  parse_single_author (with_status W f) author_name author_url st =
  parse_single_author W author_name author_url st.
Proof.
  destruct (dict_contains author_name (AUTHOR_CACHE st)) eqn:Hc.
  - by rewrite !parse_single_author_hit by done.
  - rewrite !parse_single_author_miss by done. simpl.
    by destruct (http_get W (urljoin W BASE_URL author_url)).
Qed.

Lemma parse_single_quote_status f quote_soup st :
  parse_single_quote (with_status W f) quote_soup st =
  parse_single_quote W quote_soup st.
Proof.
  rewrite !parse_single_quote_eq.
  destruct (select_one quote_soup ".author") as [a|]; [|done].
  destruct (getitem _ _ st) as [[h|e] st0]; [|done].
  by rewrite parse_single_author_status.
Qed.

Lemma mapM_quote_status f cs st :
  mapM (parse_single_quote (with_status W f)) cs st =
  mapM (parse_single_quote W) cs st.
Proof.
  revert st. induction cs as [|c cs IH]; intros st; simpl; [done|].
  unfold_M. rewrite parse_single_quote_status.
  destruct (parse_single_quote W c st) as [[q|e] st1]; [|done].
  by rewrite IH.
Qed.

Lemma get_quotes_loop_status f fuel soup page_num all_quotes st :
  1 ≤ page_num →
  get_quotes_loop (with_status W f) fuel soup page_num all_quotes st =
  get_quotes_loop W fuel soup page_num all_quotes st.
Proof.
  revert soup page_num all_quotes st.
  induction fuel as [|fuel IH]; intros soup k acc st Hk;
    rewrite !get_quotes_loop_eq by done; [done|].
  destruct (is_next_page soup); [|done]. cbv zeta.
  change (listing_url (with_status W f) (k + 1)) with (listing_url W (k + 1)).
  change (page_started (with_status W f)) with (page_started W).
  simpl. destruct (http_get W (listing_url W (k + 1))) as [resp|]; [|done].
  simpl. rewrite !get_single_page_quotes_eq, mapM_quote_status.
  destruct (mapM _ _ _) as [[qs|e] st2]; [|done].
  apply IH. lia.
Qed.

Lemma get_quotes_status f fuel st :
  get_quotes (with_status W f) fuel st = get_quotes W fuel st.
Proof.
  rewrite !get_quotes_eq. cbv zeta.
  change (page_started (with_status W f)) with (page_started W).
  simpl. destruct (http_get W BASE_URL) as [resp|]; [|done].
  simpl. rewrite !get_single_page_quotes_eq, mapM_quote_status.
  destruct (mapM _ _ _) as [[qs|e] st2]; [|done].
  apply get_quotes_loop_status. lia.
Qed.

Lemma main_status f fuel output_csv_path st :
  main (with_status W f) fuel output_csv_path st =
  main W fuel output_csv_path st.
Proof. rewrite !main_eq. by rewrite get_quotes_status. Qed.

End Walk.

(** * The claims of the specification *)

Section Claims.
Context (W : World).

Lemma resolve_all_wf calls st :
  dict_wf (AUTHOR_CACHE st) → dict_wf (AUTHOR_CACHE (resolve_all W calls st)).
Proof.
  revert st. induction calls as [|[n u] calls IH]; intros st Hwf; [done|].
  simpl. apply IH. simpl.
  destruct (parse_single_author W n u st) as [r st1] eqn:Hr.
  apply parse_single_author_evolves in Hr. by apply Hr.
Qed.

(** What [main] does beyond the walk: it sends no request, and it ends with
    the error and in the state of a walk that raised. *)
Lemma main_after_walk fuel output_csv_path st r st' :
  main W fuel output_csv_path st = Some (r, st') →
  ∃ r1 st1,
    get_quotes W fuel st = Some (r1, st1) ∧
    requests st' = requests st1 ∧
    AUTHOR_CACHE st' = AUTHOR_CACHE st1 ∧
    (∀ e, r1 = Raise e → r = Raise e ∧ st' = st1) ∧
    (∀ qs, r1 = Return qs → raised r = None ∨ ∃ p, r = Raise (OSError p)).
Proof.
  rewrite main_eq.
  destruct (get_quotes W fuel st) as [[[qs|e] st1]|]; [| |done].
  - destruct (writable W (realpath W output_csv_path));
      [destruct (writable W (realpath W "author.csv"))|];
      intros [= <- <-]; eexists _, _; (split; [done|]); simpl;
      (split_and!; [done|done|done|eauto]).
  - intros [= <- <-]. eexists _, _. split; [done|].
    split_and!; try done. by intros e' [= ->].
Qed.

Lemma sent_since_eq st st1 st' :
  requests st' = requests st1 → sent_since st st' = sent_since st st1.
Proof. unfold sent_since. by intros ->. Qed.

(** The rows of the authors table, cell by cell. *)
Lemma author_rows (d : dict Author) :
  Forall2 (λ kv row,
             row = [CStr (name kv.2); CStr (born_date kv.2);
                    CStr (born_location kv.2); CStr (description kv.2)])
    d (astuple_author <$> dict_values d).
Proof.
  unfold dict_values. induction d as [|[k a] d IH]; csimpl; by constructor.
Qed.

(** C1, as amended: for every run that completes successfully with a quotes
    path that does not denote the file [author.csv], the quotes file holds
    the header row [text,author,tags] followed by exactly one data row per
    quote of the list the walk returned; that list follows the quote
    containers of the traversed pages one for one, page after page and in
    document order within a page, so the number of data rows is the number
    of quote entries met. *)
Theorem quotes_file_rows fuel output_csv_path st st' :
  realpath W output_csv_path ≠ realpath W "author.csv" →
  main W fuel output_csv_path st = Some (Return tt, st') →
  ∃ quotes st1 pages,
    get_quotes W fuel st = Some (Return quotes, st1) ∧
    chain W 1 pages ∧
    Forall2 (λ c q, quote_of c = Some q) (containers pages) quotes ∧
    files st' !! realpath W output_csv_path =
      Some ([CStr "text"; CStr "author"; CStr "tags"]
            :: (astuple_quote <$> quotes)) ∧
    length (astuple_quote <$> quotes) = length (containers pages).
Proof.
  intros Hne. rewrite main_eq.
  destruct (get_quotes W fuel st) as [[[qs|e] st1]|] eqn:Hq; [|done..].
  destruct (writable W (realpath W output_csv_path)); [|done].
  destruct (writable W (realpath W "author.csv")); [|done].
  intros [= <-]. simpl.
  destruct (get_quotes_Return _ _ _ _ _ Hq) as (pages & Hchain & HF2 & _ & _).
  exists qs, st1, pages. split_and!; try done.
  - rewrite lookup_insert_ne by done. by rewrite lookup_insert_eq.
  - rewrite length_fmap. symmetry. by eapply Forall2_length.
Qed.

(** C2, as amended: the walk requests the root page, then [page/2/],
    [page/3/], ... one after the other.  Along a finite chain of pages that
    ends in a page without next-page indicator it terminates; the listing
    pages it has requested are the first pages of the chain, each once and
    in order; when it returns, it has requested every page of the chain and
    returns the quotes accumulated over them; and it does return when no
    container of the chain lacks a node or an author page. *)
Theorem pagination_walk pages fuel st :
  chain W 1 pages →
  (length pages ≤ S fuel)%nat →
  ∃ r st' n,
    get_quotes W fuel st = Some (r, st') ∧
    (1 ≤ n ≤ length pages)%nat ∧
    fetched_by InGetQuotes st' =
      fetched_by InGetQuotes st ++ listing_urls W 1 n ∧
    (∀ quotes, r = Return quotes →
       n = length pages ∧
       Forall2 (λ c q, quote_of c = Some q) (containers pages) quotes) ∧
    (Forall (λ c, has_required c = true ∧ resolvable W c) (containers pages) →
     ∃ quotes, r = Return quotes).
Proof.
  intros Hchain Hfuel.
  destruct (get_quotes_chain W pages fuel st Hchain Hfuel)
    as (r & st' & n & Hrun & Hn & Hf & Hret & Hgood).
  exists r, st', n. split_and!; try done; try lia.
  intros quotes ->. split; [eauto|].
  destruct (get_quotes_Return _ _ _ _ _ Hrun) as (pages' & Hchain' & HF2 & _).
  by rewrite (chain_functional _ _ _ _ Hchain Hchain').
Qed.

(** C3, as amended: the fetch operation fails, with a fetch error, exactly
    when the transport itself fails; a response is handed back whatever its
    status.  Whenever a run has sent a request that the transport left
    unanswered, be it for the root page, a later listing page or a profile
    page, the run has failed with the fetch error of that request.  The
    status is read nowhere: a run on the same site with the statuses
    recoded at will is the same run. *)
Theorem fetch_fails_on_transport_failure site url f fuel output_csv_path st :
  let st1 := mkState (AUTHOR_CACHE st) (requests st ++ [(site, url)])
               (log st) (files st) in
  (http_get W url = None →
   requests_get W site url st = (Raise (ConnectionError url), st1)) ∧
  (∀ r, http_get W url = Some r →
        requests_get W site url st = (Return r, st1)) ∧
  (∀ r st' site' url',
     main W fuel output_csv_path st = Some (r, st') →
     (site', url') ∈ sent_since st st' →
     http_get W url' = None →
     r = Raise (ConnectionError url')) ∧
  main (with_status W f) fuel output_csv_path st =
  main W fuel output_csv_path st.
Proof.
  cbv zeta. split_and!.
  - intros H. unfold requests_get. by rewrite H.
  - intros r H. unfold requests_get. by rewrite H.
  - intros r st' site' url' Hrun Hin Hnone.
    apply main_after_walk in Hrun
        as (r1 & st1 & Hq & Hreq & _ & Hraise & _).
    rewrite (sent_since_eq _ _ _ Hreq) in Hin.
    apply get_quotes_traced, traced_sent_since in Hq as (_ & Ht & _).
    specialize (Ht _ _ Hin Hnone).
    destruct r1 as [qs|e]; [done|]. injection Ht as ->.
    by destruct (Hraise _ eq_refl) as [-> _].
  - apply main_status.
Qed.

(** C4: resolving a name that is already a key of the cache sends no
    request and leaves the cache as it is; whatever the sequence of resolve
    calls, the cache holds at most one entry per name; and after a
    successful run the authors file holds the header and as many data rows
    as the cache has entries, whose keys are those it had before the run
    followed by the author names of the quotes, each once; the author name
    of each quote is the key of exactly one entry, whose record is the row
    at the same place, however many quotes share that name. *)
Theorem author_resolution_idempotent :
  (∀ author_name author_url st,
     dict_contains author_name (AUTHOR_CACHE st) = true →
     ∃ st',
       parse_single_author W author_name author_url st = (Return tt, st') ∧
       AUTHOR_CACHE st' = AUTHOR_CACHE st ∧
       requests st' = requests st) ∧
  (∀ calls st author_name,
     dict_wf (AUTHOR_CACHE st) →
     (dict_count author_name (AUTHOR_CACHE (resolve_all W calls st)) ≤ 1)%nat) ∧
  (∀ fuel output_csv_path st st',
     dict_wf (AUTHOR_CACHE st) →
     main W fuel output_csv_path st = Some (Return tt, st') →
     ∃ quotes st1 rows,
       get_quotes W fuel st = Some (Return quotes, st1) ∧
       files st' !! realpath W "author.csv" =
         Some ([CStr "name"; CStr "born_date"; CStr "born_location";
                CStr "description"] :: rows) ∧
       length rows = length (AUTHOR_CACHE st') ∧
       dict_keys (AUTHOR_CACHE st') =
         first_seen (dict_keys (AUTHOR_CACHE st)) (author <$> quotes) ∧
       Forall (λ q,
                 ∃ i a,
                   AUTHOR_CACHE st' !! i = Some (author q, a) ∧
                   rows !! i =
                     Some [CStr (name a); CStr (born_date a);
                           CStr (born_location a); CStr (description a)] ∧
                   ∀ j b, AUTHOR_CACHE st' !! j = Some (author q, b) → j = i)
         quotes).
Proof.
  split_and!.
  - intros n u st Hhit. rewrite parse_single_author_hit by done. eauto.
  - intros calls st n Hwf. apply dict_count_le_1. by apply resolve_all_wf.
  - intros fuel path st st' Hwf. rewrite main_eq.
    destruct (get_quotes W fuel st) as [[[qs|e] st1]|] eqn:Hq; [|done..].
    destruct (writable W (realpath W path)); [|done].
    destruct (writable W (realpath W "author.csv")); [|done].
    intros [= <-]. simpl.
    exists qs, st1, (astuple_author <$> dict_values (AUTHOR_CACHE st1)).
    pose proof (author_rows (AUTHOR_CACHE st1)) as Hrows.
    split_and!; [done| | | |].
    + by rewrite lookup_insert_eq.
    + symmetry. by eapply Forall2_length.
    + by apply get_quotes_keys in Hq.
    + pose proof (get_quotes_evolves _ _ _ _ _ Hq) as Hev.
      destruct (get_quotes_Return _ _ _ _ _ Hq) as (pages & _ & _ & HF & _).
      eapply Forall_impl; [exact HF|]. intros q Hin. simpl in Hin.
      destruct (dict_unique_index (author q) (AUTHOR_CACHE st1))
        as (i & a & Hi & Huniq); [by apply Hev|done|].
      exists i, a. split_and!; [done| |done].
      destruct (Forall2_lookup_l _ _ _ _ _ Hrows Hi) as (row & -> & ->).
      done.
Qed.

(** C5: a quote is returned only once its author has been resolved, so the
    author name of every quote the walk returns is the key of exactly one
    entry of the cache at the end of the crawl. *)
Theorem quote_authors_cached fuel st quotes st' :
  dict_wf (AUTHOR_CACHE st) →
  get_quotes W fuel st = Some (Return quotes, st') →
  Forall (λ q, dict_count (author q) (AUTHOR_CACHE st') = 1%nat) quotes ∧
  (∀ quote_soup st0 q st1,
     parse_single_quote W quote_soup st0 = (Return q, st1) →
     author q ∈ dict_keys (AUTHOR_CACHE st1)).
Proof.
  intros Hwf Hq. split.
  - pose proof (get_quotes_evolves _ _ _ _ _ Hq) as Hev.
    destruct (get_quotes_Return _ _ _ _ _ Hq) as (pages & _ & _ & HF & _).
    eapply Forall_impl; [exact HF|]. intros q Hin.
    apply dict_count_wf; [by apply Hev|done].
  - intros c st0 q st1 Hc. by apply parse_single_quote_Return in Hc as [_ ?].
Qed.

(** C6: on a cache miss, when the fetch of the profile page fails or one of
    the four fields is absent from the page, [parse_single_author] raises
    the fetch error, respectively an extraction error, and the cache is
    what it was before the call. *)
Theorem failed_resolution_keeps_cache author_name author_url st :
  dict_contains author_name (AUTHOR_CACHE st) = false →
  let url := urljoin W BASE_URL author_url in
  (http_get W url = None ∨
   ∃ r, http_get W url = Some r ∧
        let soup := BeautifulSoup (content r) in
        select_one soup ".author-title" = None ∨
        select_one soup ".author-born-date" = None ∨
        select_one soup ".author-born-location" = None ∨
        select_one soup ".author-description" = None) →
  ∃ e st',
    parse_single_author W author_name author_url st = (Raise e, st') ∧
    AUTHOR_CACHE st' = AUTHOR_CACHE st ∧
    (http_get W url = None → e = ConnectionError url) ∧
    (is_Some (http_get W url) → is_ExtractionError e = true).
Proof.
  intros Hmiss url Hfail. rewrite parse_single_author_miss by done.
  cbv zeta. fold url.
  destruct Hfail as [Hnone|(r & Hr & Hfield)].
  - rewrite Hnone. eexists _, _. split_and!; done.
  - rewrite Hr.
    assert (author_of_page (BeautifulSoup (content r)) = None) as ->.
    { unfold author_of_page. cbv zeta in Hfield.
      destruct Hfield as [ -> | [ -> | [ -> | -> ] ] ]; [done|..];
        repeat (match goal with
                | |- context [match select_one ?s ?c with _ => _ end] =>
                    destruct (select_one s c)
                end); done. }
    eexists _, _. split_and!; done.
Qed.

(** C7, as amended: extraction of a page takes the containers in document
    order and raises what the first container that raises does.  It raises
    whenever a container lacks a required node (the author name, the [href]
    of its first link, or the quote text).  A container lacking the author
    name or the link raises an extraction error before anything else
    happens; one lacking only its text raises an extraction error unless
    the resolution of its author raised first; and a container whose
    author cannot be resolved raises the error of the resolution, whatever
    nodes it has.  When every container has its required nodes and the
    profile page of every author can be resolved, extraction returns one
    quote per container, in order; and whenever extraction returns, every
    container had its required nodes. *)
Theorem page_extraction page_soup st :
  let cs := select page_soup ".quote" in
  (Exists (λ c, has_required c = false) cs →
   ∃ e st', get_single_page_quotes W page_soup st = (Raise e, st')) ∧
  (∀ e st',
     get_single_page_quotes W page_soup st = (Raise e, st') ↔
     ∃ cs1 c cs2 qs1 st1,
       cs = cs1 ++ c :: cs2 ∧
       mapM (parse_single_quote W) cs1 st = (Return qs1, st1) ∧
       parse_single_quote W c st1 = (Raise e, st')) ∧
  (Forall (λ c, has_required c = true ∧ resolvable W c) cs →
   ∃ qs st', get_single_page_quotes W page_soup st = (Return qs, st') ∧
             Forall2 (λ c q, quote_of c = Some q) cs qs) ∧
  (∀ qs st', get_single_page_quotes W page_soup st = (Return qs, st') →
             Forall (λ c, has_required c = true) cs ∧ length qs = length cs) ∧
  (∀ c st0, has_author_name c && has_author_link c = false →
            ∃ e, parse_single_quote W c st0 = (Raise e, st0) ∧
                 is_ExtractionError e = true) ∧
  (∀ c st0, has_required c = false →
            ∃ e st', parse_single_quote W c st0 = (Raise e, st') ∧
              (is_ExtractionError e = true ∨
               ∃ a h, select_one c ".author" = Some a ∧
                      href_of c = Some h ∧
                      parse_single_author W (text_of a) h st0 = (Raise e, st'))) ∧
  (∀ c st0 a h e st',
     select_one c ".author" = Some a →
     href_of c = Some h →
     parse_single_author W (text_of a) h st0 = (Raise e, st') →
     parse_single_quote W c st0 = (Raise e, st')).
Proof.
  cbv zeta. rewrite get_single_page_quotes_eq. split_and!.
  - apply mapM_quote_missing.
  - intros e st'. apply mapM_Raise_split.
  - intros Hgood.
    destruct (mapM_quote_resolvable W _ st Hgood) as (qs & st' & Hrun).
    exists qs, st'. split; [done|]. by apply mapM_quote_Return in Hrun as [? _].
  - intros qs st' Hrun. apply mapM_quote_Return in Hrun as [HF2 _]. split.
    + induction HF2 as [|c q cs qs0 Hq _ IH]; constructor; [|done].
      apply has_required_quote_of. eauto.
    + symmetry. by eapply Forall2_length.
  - intros c st0 Hc.
    assert (has_required c = false) as Hreq.
    { unfold has_required. by rewrite Hc. }
    destruct (parse_single_quote_missing W c st0 Hreq) as (e & st' & Hrun & He).
    destruct (He Hc) as [? ->]. eauto.
  - intros c st0. apply parse_single_quote_missing_kind.
  - intros c st0 a h e st'. apply parse_single_quote_author_Raise.
Qed.

(** C8, as amended: a failure of a request of the walk (the transport
    leaves it unanswered, the listing page fetched holds a container
    without a required node, the profile page fetched lacks a field) makes
    the walk, and with it the run, raise: no quote list is returned, and no
    file other than the log file is created or changed, neither output
    having been opened. *)
Theorem failed_walk_writes_nothing fuel output_csv_path st r st' :
  main W fuel output_csv_path st = Some (r, st') →
  Exists (request_fails W) (sent_since st st') →
  ∃ e, r = Raise e ∧
       get_quotes W fuel st = Some (Raise e, st') ∧
       ∀ p, p ≠ realpath W LOG_FILE → files st' !! p = files st !! p.
Proof.
  intros Hrun.
  destruct (main_after_walk _ _ _ _ _ Hrun)
    as (r1 & st1 & Hq & Hreq & _ & Hraise & _).
  rewrite (sent_since_eq _ _ _ Hreq). intros Hex.
  pose proof (get_quotes_evolves _ _ _ _ _ Hq) as [Hfiles _ _ _ _].
  pose proof (traced_sent_since _ _ _ _ _ (get_quotes_traced _ _ _ _ _ Hq))
    as (_ & _ & Hf & _).
  destruct (Hf Hex) as [e He]. destruct r1 as [qs|e1]; [done|].
  injection He as ->. destruct (Hraise _ eq_refl) as [-> ->]. eauto.
Qed.

(** C9: a successful run leaves, under the fixed path
    [author.csv], the header row [name,born_date,born_location,description]
    followed by one data row per entry of the cache, which holds the four
    fields of the entry's record, the rows in the order of the entries.
    That order is the order of first appearance: the entries present before
    the run come first and in place, followed by the author names of the
    quotes of the walk that were not yet keys, each once, as the quotes
    first show them. *)
Theorem authors_file_rows fuel output_csv_path st st' :
  main W fuel output_csv_path st = Some (Return tt, st') →
  ∃ rows quotes st1,
    files st' !! realpath W "author.csv" =
      Some ([CStr "name"; CStr "born_date"; CStr "born_location";
             CStr "description"] :: rows) ∧
    Forall2 (λ kv row,
               row = [CStr (name kv.2); CStr (born_date kv.2);
                      CStr (born_location kv.2); CStr (description kv.2)])
      (AUTHOR_CACHE st') rows ∧
    get_quotes W fuel st = Some (Return quotes, st1) ∧
    AUTHOR_CACHE st `prefix_of` AUTHOR_CACHE st' ∧
    dict_keys (AUTHOR_CACHE st') =
      first_seen (dict_keys (AUTHOR_CACHE st)) (author <$> quotes).
Proof.
  rewrite main_eq.
  destruct (get_quotes W fuel st) as [[[qs|e] st1]|] eqn:Hq; [|done..].
  destruct (writable W (realpath W output_csv_path)); [|done].
  destruct (writable W (realpath W "author.csv")); [|done].
  intros [= <-]. simpl.
  exists (astuple_author <$> dict_values (AUTHOR_CACHE st1)), qs, st1.
  split_and!; [by rewrite lookup_insert_eq|apply author_rows|done| |].
  - by apply get_quotes_evolves in Hq as [_ _ ? _ _].
  - by apply get_quotes_keys in Hq.
Qed.


End Claims.

(** * The claims on the sites of [Demo] *)

(** Two quotes by Alice: her profile page is requested once, and the second
    resolution is logged as a cache hit. *)
Example demo_run_requests :
  requests (Demo.final Demo.run) =
  [ (InGetQuotes, "https://quotes.toscrape.com/");
    (InParseSingleAuthor, "https://quotes.toscrape.com/author/Alice");
    (InParseSingleAuthor, "https://quotes.toscrape.com/author/Bob");
    (InGetQuotes, "https://quotes.toscrape.com/page/2/") ] ∧
  log (Demo.final Demo.run) =
  [ "Start parsing Quotes"; "Start parsing page 2";
    "Getting author Alice from cache" ].
Proof. vm_compute. done. Qed.

(** The files the run leaves: the two tables and the log file. *)
Example demo_run_files :
  files (Demo.final Demo.run) !! "quotes.csv" =
    Some [ [CStr "text"; CStr "author"; CStr "tags"];
           [CStr "One"; CStr "Alice"; CList ["x"; "y"]];
           [CStr "Two"; CStr "Bob"; CList []];
           [CStr "Three"; CStr "Alice"; CList ["x"; "x"]] ] ∧
  files (Demo.final Demo.run) !! "author.csv" =
    Some [ [CStr "name"; CStr "born_date"; CStr "born_location";
            CStr "description"];
           [CStr "Alice"; CStr "May 1, 1900"; CStr "in Wonderland"; CStr "A."];
           [CStr "Bob"; CStr "June 2, 1901"; CStr "in Bristol"; CStr "B."] ] ∧
  files (Demo.final Demo.run) !! "parser.log" =
    Some [ [CStr "[    INFO] Start parsing Quotes"];
           [CStr "[    INFO] Start parsing page 2"];
           [CStr "[    INFO] Getting author Alice from cache"] ] ∧
  size (files (Demo.final Demo.run)) = 3%nat.
Proof. split_and!; vm_compute; reflexivity. Qed.

(** With too little fuel the model reports that the loop was still running. *)
Example demo_walk_out_of_fuel : get_quotes Demo.site 0 initial_state = None.
Proof. vm_compute. reflexivity. Qed.

Example listing_urls_3 W :
  listing_urls W 1 3 =
  [ BASE_URL; urljoin W BASE_URL "page/2/"; urljoin W BASE_URL "page/3/" ].
Proof. reflexivity. Qed.

(** C1 fails as stated: called with ["author.csv"] as the quotes path, the
    run completes and the file holds the authors table, not the quotes. *)
Lemma quotes_file_overwritten :
  main Demo.site 5 "author.csv" initial_state
    = Some (Return tt, Demo.final (main Demo.site 5 "author.csv" initial_state)) ∧
  get_quotes Demo.site 5 initial_state
    = Some (Return (Demo.returned Demo.walk), Demo.final Demo.walk) ∧
  files (Demo.final (main Demo.site 5 "author.csv" initial_state))
    !! realpath Demo.site "author.csv"
  ≠ Some ([CStr "text"; CStr "author"; CStr "tags"]
          :: (astuple_quote <$> Demo.returned Demo.walk)).
Proof. split_and!; vm_compute; [reflexivity|reflexivity|discriminate]. Qed.

Lemma quotes_file_rows_witness :
  ∃ quotes st1 pages,
    get_quotes Demo.site 5 initial_state = Some (Return quotes, st1) ∧
    chain Demo.site 1 pages ∧
    Forall2 (λ c q, quote_of c = Some q) (containers pages) quotes ∧
    files (Demo.final Demo.run) !! realpath Demo.site "quotes.csv" =
      Some ([CStr "text"; CStr "author"; CStr "tags"]
            :: (astuple_quote <$> quotes)) ∧
    length (astuple_quote <$> quotes) = length (containers pages).
Proof.
  apply (quotes_file_rows Demo.site 5 "quotes.csv" initial_state
           (Demo.final Demo.run)).
  - vm_compute. discriminate.
  - vm_compute. reflexivity.
Defined.

Lemma demo_chain :
  chain Demo.site 1 [BeautifulSoup Demo.page1; BeautifulSoup Demo.page2].
Proof.
  apply chain_next; [reflexivity|reflexivity|].
  apply chain_last; reflexivity.
Defined.

Lemma pagination_walk_witness :
  ∃ r st' n,
    get_quotes Demo.site 5 initial_state = Some (r, st') ∧
    (1 ≤ n ≤ 2)%nat ∧
    fetched_by InGetQuotes st' =
      fetched_by InGetQuotes initial_state ++ listing_urls Demo.site 1 n ∧
    (∀ quotes, r = Return quotes →
       n = 2%nat ∧
       Forall2 (λ c q, quote_of c = Some q)
         (containers [BeautifulSoup Demo.page1; BeautifulSoup Demo.page2])
         quotes) ∧
    (Forall (λ c, has_required c = true ∧ resolvable Demo.site c)
       (containers [BeautifulSoup Demo.page1; BeautifulSoup Demo.page2]) →
     ∃ quotes, r = Return quotes).
Proof.
  apply (pagination_walk Demo.site
           [BeautifulSoup Demo.page1; BeautifulSoup Demo.page2] 5
           initial_state).
  - exact demo_chain.
  - simpl. lia.
Defined.

(** C2 fails as stated: the two pages below form a chain that ends in a
    page without next-page indicator, but the root page holds a container
    without author name, so that the walk raises after the root request and
    never requests the second page. *)
Lemma walk_stops_at_defective_root :
  chain Demo.torn_root 1
    [ BeautifulSoup [Demo.no_author; Demo.next_li "page/2/"];
      BeautifulSoup Demo.page2 ] ∧
  get_quotes Demo.torn_root 5 initial_state =
    Some (Raise (AttributeError "text"),
          Demo.final (get_quotes Demo.torn_root 5 initial_state)) ∧
  fetched_by InGetQuotes
    (Demo.final (get_quotes Demo.torn_root 5 initial_state)) = [BASE_URL].
Proof.
  split_and!; [|vm_compute; reflexivity..].
  apply chain_next; [reflexivity|reflexivity|].
  apply chain_last; reflexivity.
Qed.

(** C3 fails as stated: the root page answers 404, the fetch returns the
    response and the run completes, writing both files. *)
Lemma non_2xx_is_not_a_failure :
  requests_get Demo.gone InGetQuotes BASE_URL initial_state
    = (Return (mkResponse 404 []),
       mkState [] [(InGetQuotes, BASE_URL)] [] ∅) ∧
  main Demo.gone 0 "quotes.csv" initial_state
    = Some (Return tt, Demo.final (main Demo.gone 0 "quotes.csv" initial_state)) ∧
  files (Demo.final (main Demo.gone 0 "quotes.csv" initial_state)) !! "quotes.csv"
    = Some [[CStr "text"; CStr "author"; CStr "tags"]].
Proof. split_and!; vm_compute; reflexivity. Qed.

(** The second listing page is announced and not served: the run fails with
    the fetch error of that request. *)
Lemma fetch_fails_on_transport_failure_witness :
  ∃ r,
    main Demo.cut 5 "quotes.csv" initial_state =
      Some (r, Demo.final (main Demo.cut 5 "quotes.csv" initial_state)) ∧
    r = Raise (ConnectionError "https://quotes.toscrape.com/page/2/").
Proof.
  eexists. split; cycle 1.
  - apply (proj1 (proj2 (proj2
             (fetch_fails_on_transport_failure Demo.cut InGetQuotes BASE_URL
                (λ _ _, 200) 5 "quotes.csv" initial_state)))
             _ (Demo.final (main Demo.cut 5 "quotes.csv" initial_state))
             InGetQuotes "https://quotes.toscrape.com/page/2/").
    + vm_compute. reflexivity.
    + vm_compute. set_solver.
    + reflexivity.
  - vm_compute. reflexivity.
Defined.

Lemma author_resolution_idempotent_witness :
  (∃ st',
     parse_single_author Demo.site "Alice" "author/Alice" (Demo.final Demo.walk)
       = (Return tt, st') ∧
     AUTHOR_CACHE st' = AUTHOR_CACHE (Demo.final Demo.walk) ∧
     requests st' = requests (Demo.final Demo.walk)) ∧
  (∃ quotes st1 rows,
     get_quotes Demo.site 5 initial_state = Some (Return quotes, st1) ∧
     files (Demo.final Demo.run) !! realpath Demo.site "author.csv" =
       Some ([CStr "name"; CStr "born_date"; CStr "born_location";
              CStr "description"] :: rows) ∧
     length rows = length (AUTHOR_CACHE (Demo.final Demo.run)) ∧
     dict_keys (AUTHOR_CACHE (Demo.final Demo.run)) =
       first_seen (dict_keys (AUTHOR_CACHE initial_state))
         (author <$> quotes) ∧
     Forall (λ q,
               ∃ i a,
                 AUTHOR_CACHE (Demo.final Demo.run) !! i = Some (author q, a) ∧
                 rows !! i =
                   Some [CStr (name a); CStr (born_date a);
                         CStr (born_location a); CStr (description a)] ∧
                 ∀ j b, AUTHOR_CACHE (Demo.final Demo.run) !! j
                          = Some (author q, b) → j = i)
       quotes).
Proof.
  destruct (author_resolution_idempotent Demo.site) as (Hhit & _ & Hrun).
  split.
  - apply Hhit. vm_compute. reflexivity.
  - apply (Hrun 5%nat "quotes.csv" initial_state (Demo.final Demo.run)).
    + apply NoDup_nil_2.
    + vm_compute. reflexivity.
Defined.

Lemma quote_authors_cached_witness :
  Forall (λ q, dict_count (author q) (AUTHOR_CACHE (Demo.final Demo.walk))
               = 1%nat) (Demo.returned Demo.walk) ∧
  (∀ quote_soup st0 q st1,
     parse_single_quote Demo.site quote_soup st0 = (Return q, st1) →
     author q ∈ dict_keys (AUTHOR_CACHE st1)).
Proof.
  apply (quote_authors_cached Demo.site 5 initial_state
           (Demo.returned Demo.walk) (Demo.final Demo.walk)).
  - apply NoDup_nil_2.
  - vm_compute. reflexivity.
Defined.

Lemma failed_resolution_keeps_cache_witness :
  ∃ e st',
    parse_single_author Demo.torn_profile "Bob" "author/Bob" initial_state
      = (Raise e, st') ∧
    AUTHOR_CACHE st' = AUTHOR_CACHE initial_state ∧
    (http_get Demo.torn_profile
       (urljoin Demo.torn_profile BASE_URL "author/Bob") = None →
     e = ConnectionError (urljoin Demo.torn_profile BASE_URL "author/Bob")) ∧
    (is_Some (http_get Demo.torn_profile
                (urljoin Demo.torn_profile BASE_URL "author/Bob")) →
     is_ExtractionError e = true).
Proof.
  apply (failed_resolution_keeps_cache Demo.torn_profile "Bob" "author/Bob"
           initial_state).
  - reflexivity.
  - right. exists (mkResponse 200 Demo.bob_torn). split; [reflexivity|].
    do 3 right. reflexivity.
Defined.

(** C7 fails as stated: every container of the page has its required nodes,
    yet extraction raises, and an extraction error at that, because the
    profile page of the author lacks a field. *)
Lemma complete_containers_can_fail :
  Forall (λ c, has_required c = true)
    (select (BeautifulSoup [Demo.q2]) ".quote") ∧
  get_single_page_quotes Demo.torn_profile (BeautifulSoup [Demo.q2])
    initial_state
  = (Raise (AttributeError "text"),
     mkState [] [(InParseSingleAuthor, "https://quotes.toscrape.com/author/Bob")]
       [] ∅) ∧
  is_ExtractionError (AttributeError "text") = true.
Proof.
  split_and!; [|vm_compute; reflexivity|reflexivity].
  apply Forall_forall. intros c Hc.
  assert (select (BeautifulSoup [Demo.q2]) ".quote" = [Demo.q2]) as Hsel
    by (vm_compute; reflexivity).
  rewrite Hsel in Hc. apply list_elem_of_singleton in Hc as ->.
  vm_compute. reflexivity.
Qed.

(** A page with a container without author name need not end in an
    extraction error: the resolution of an earlier author may raise
    first. *)
Example defective_page_fetch_error :
  get_single_page_quotes Demo.bob_unreachable
    (BeautifulSoup [Demo.q2; Demo.no_author]) initial_state
  = (Raise (ConnectionError "https://quotes.toscrape.com/author/Bob"),
     mkState [] [(InParseSingleAuthor, "https://quotes.toscrape.com/author/Bob")]
       [] ∅).
Proof. vm_compute. reflexivity. Qed.

Lemma demo_page1_good :
  Forall (λ c, has_required c = true ∧ resolvable Demo.site c)
    (select (BeautifulSoup Demo.page1) ".quote").
Proof.
  assert (select (BeautifulSoup Demo.page1) ".quote" = [Demo.q1; Demo.q2])
    as -> by (vm_compute; reflexivity).
  repeat constructor.
  - exists "author/Alice", (mkResponse 200 Demo.alice_page),
      (mkAuthor "Alice" "May 1, 1900" "in Wonderland" "A.").
    split_and!; reflexivity.
  - exists "author/Bob", (mkResponse 200 Demo.bob_page),
      (mkAuthor "Bob" "June 2, 1901" "in Bristol" "B.").
    split_and!; reflexivity.
Defined.

Lemma page_extraction_witness :
  ∃ qs st',
    get_single_page_quotes Demo.site (BeautifulSoup Demo.page1) initial_state
      = (Return qs, st') ∧
    Forall2 (λ c q, quote_of c = Some q)
      (select (BeautifulSoup Demo.page1) ".quote") qs.
Proof.
  apply (proj1 (proj2 (proj2 (page_extraction Demo.site
                                 (BeautifulSoup Demo.page1) initial_state)))).
  exact demo_page1_good.
Defined.

(** C8 fails as stated: the walk fails on its second page, and the run,
    started with the quotes path ["parser.log"], has by then changed the
    file of that name, which was empty, by the three records it logged. *)
Lemma failed_run_writes_the_log_file :
  main Demo.torn_quote 5 "parser.log" Demo.loaded =
    Some (Raise (AttributeError "text"),
          Demo.final (main Demo.torn_quote 5 "parser.log" Demo.loaded)) ∧
  files Demo.loaded !! realpath Demo.torn_quote "parser.log" = Some [] ∧
  files (Demo.final (main Demo.torn_quote 5 "parser.log" Demo.loaded))
    !! realpath Demo.torn_quote "parser.log" =
    Some [ [CStr "[    INFO] Start parsing Quotes"];
           [CStr "[    INFO] Start parsing page 2"];
           [CStr "[    INFO] Getting author Bob from cache"] ].
Proof. split_and!; vm_compute; reflexivity. Qed.

Lemma failed_walk_writes_nothing_witness :
  ∃ e,
    (Raise (AttributeError "text") : Result unit) = Raise e ∧
    get_quotes Demo.torn_quote 5 initial_state =
      Some (Raise e,
            Demo.final (main Demo.torn_quote 5 "quotes.csv" initial_state)) ∧
    ∀ p, p ≠ realpath Demo.torn_quote LOG_FILE →
         files (Demo.final (main Demo.torn_quote 5 "quotes.csv" initial_state))
           !! p = files initial_state !! p.
Proof.
  apply (failed_walk_writes_nothing Demo.torn_quote 5 "quotes.csv"
           initial_state (Raise (AttributeError "text"))
           (Demo.final (main Demo.torn_quote 5 "quotes.csv" initial_state))
           ltac:(vm_compute; reflexivity)).
  assert (sent_since initial_state
            (Demo.final (main Demo.torn_quote 5 "quotes.csv" initial_state))
          = [ (InGetQuotes, "https://quotes.toscrape.com/");
              (InParseSingleAuthor, "https://quotes.toscrape.com/author/Alice");
              (InParseSingleAuthor, "https://quotes.toscrape.com/author/Bob");
              (InGetQuotes, "https://quotes.toscrape.com/page/2/") ]) as ->
    by (vm_compute; reflexivity).
  do 3 apply Exists_cons_tl. apply Exists_cons_hd.
  unfold request_fails. simpl.
  apply Exists_cons_hd. reflexivity.
Defined.

Lemma authors_file_rows_witness :
  ∃ rows quotes st1,
    files (Demo.final Demo.run) !! realpath Demo.site "author.csv" =
      Some ([CStr "name"; CStr "born_date"; CStr "born_location";
             CStr "description"] :: rows) ∧
    Forall2 (λ kv row,
               row = [CStr (name kv.2); CStr (born_date kv.2);
                      CStr (born_location kv.2); CStr (description kv.2)])
      (AUTHOR_CACHE (Demo.final Demo.run)) rows ∧
    get_quotes Demo.site 5 initial_state = Some (Return quotes, st1) ∧
    AUTHOR_CACHE initial_state `prefix_of` AUTHOR_CACHE (Demo.final Demo.run) ∧
    dict_keys (AUTHOR_CACHE (Demo.final Demo.run)) =
      first_seen (dict_keys (AUTHOR_CACHE initial_state)) (author <$> quotes).
Proof.
  apply (authors_file_rows Demo.site 5 "quotes.csv" initial_state
           (Demo.final Demo.run)).
  vm_compute. reflexivity.
Defined.


(** * Further properties of the code *)

Section Further.
Context (W : World).

(** X1: once a name has been resolved, resolving it again, under whatever
    address, returns without a request and leaves the cache and every file
    but the log file as they are; it logs the cache hit, one record more in
    the log file. *)
Theorem resolve_again_is_noop author_name url1 url2 st st1 :
  parse_single_author W author_name url1 st = (Return tt, st1) →
  ∃ st2,
    parse_single_author W author_name url2 st1 = (Return tt, st2) ∧
    AUTHOR_CACHE st2 = AUTHOR_CACHE st1 ∧
    requests st2 = requests st1 ∧
    log st2 = log st1 ++ ["Getting author " +:+ author_name +:+ " from cache"] ∧
    (∀ p, p ≠ realpath W LOG_FILE → files st2 !! p = files st1 !! p) ∧
    files st2 !! realpath W LOG_FILE =
      Some (default [] (files st1 !! realpath W LOG_FILE)
            ++ [[CStr ("[    INFO] Getting author " +:+ author_name
                       +:+ " from cache")]]).
Proof.
  intros H1. apply parse_single_author_Return in H1.
  rewrite parse_single_author_hit by by apply dict_contains_true.
  eexists. split; [done|]. simpl. split_and!; try done.
  - intros p Hp. by apply append_line_ne.
  - apply append_line_eq.
Qed.

(** X2: on a cache miss whose profile page has the four fields, the record
    read from the page is stored under the name given by the caller, behind
    the entries already there; looking that name up yields the record, and
    every other name is looked up as before.  One request is sent, to the
    address joined from the base and the given reference. *)
Theorem miss_stores_page_record author_name author_url st r a :
  dict_contains author_name (AUTHOR_CACHE st) = false →
  http_get W (urljoin W BASE_URL author_url) = Some r →
  author_of_page (BeautifulSoup (content r)) = Some a →
  ∃ st',
    parse_single_author W author_name author_url st = (Return tt, st') ∧
    AUTHOR_CACHE st' = AUTHOR_CACHE st ++ [(author_name, a)] ∧
    assoc author_name (AUTHOR_CACHE st') = Some a ∧
    (∀ k, k ≠ author_name →
          assoc k (AUTHOR_CACHE st') = assoc k (AUTHOR_CACHE st)) ∧
    requests st' =
      requests st ++ [(InParseSingleAuthor, urljoin W BASE_URL author_url)] ∧
    log st' = log st ∧ files st' = files st.
Proof.
  intros Hmiss Hget Hpage. rewrite parse_single_author_miss by done.
  cbv zeta. rewrite Hget, Hpage. eexists. split; [done|]. simpl.
  apply dict_contains_false in Hmiss.
  split_and!; try done.
  - by apply assoc_snoc_eq.
  - intros k Hk. by apply assoc_snoc_ne.
Qed.

(** X3: the nodes of a container are read in a fixed order, and the first
    one missing decides the exception: no author name raises
    [AttributeError]; with a name but no [a] element, [TypeError]; with an
    [a] element that has no [href], [KeyError].  In all three cases the
    state is untouched: no request has been sent. *)
Theorem quote_error_precedence quote_soup st :
  (select_one quote_soup ".author" = None →
   parse_single_quote W quote_soup st = (Raise (AttributeError "text"), st)) ∧
  (is_Some (select_one quote_soup ".author") →
   select_one quote_soup "a" = None →
   parse_single_quote W quote_soup st = (Raise TypeError, st)) ∧
  (∀ nm cls attrs cs,
     is_Some (select_one quote_soup ".author") →
     select_one quote_soup "a" = Some (Tag nm cls attrs cs) →
     assoc "href" attrs = None →
     parse_single_quote W quote_soup st = (Raise (KeyError "href"), st)).
Proof.
  rewrite parse_single_quote_eq. split_and!.
  - by intros ->.
  - intros [a ->] ->. done.
  - intros nm cls attrs cs [a ->] -> Hattr. simpl. by rewrite Hattr.
Qed.

(** X4: the author is resolved before the quote text is read.  A container
    that has its author name and link but no text raises [AttributeError]
    only after its author, if new, has been requested and stored: the
    failed extraction leaves the new cache entry behind. *)
Theorem author_cached_despite_missing_text quote_soup st a h r rec :
  select_one quote_soup ".author" = Some a →
  href_of quote_soup = Some h →
  select_one quote_soup ".text" = None →
  dict_contains (text_of a) (AUTHOR_CACHE st) = false →
  http_get W (urljoin W BASE_URL h) = Some r →
  author_of_page (BeautifulSoup (content r)) = Some rec →
  parse_single_quote W quote_soup st =
    (Raise (AttributeError "text"),
     mkState (AUTHOR_CACHE st ++ [(text_of a, rec)])
       (requests st ++ [(InParseSingleAuthor, urljoin W BASE_URL h)])
       (log st) (files st)).
Proof.
  intros Ha Hh Ht Hmiss Hget Hpage.
  rewrite parse_single_quote_eq, Ha, Ht.
  pose proof (getitem_href quote_soup st) as Hg. rewrite Hh in Hg. rewrite Hg.
  rewrite parse_single_author_miss by done. cbv zeta.
  by rewrite Hget, Hpage.
Qed.

(** X5: whatever its outcome, the walk leaves every file but the log file
    alone and only appends to the log file; it sends requests without
    retracting any; and it only adds to the cache, one entry for each
    profile page it requested that was served with its four fields, in the
    order of the requests and with the record of that page.  The entries
    are there also when the walk fails half-way; those present before stay
    where they are with the records they had, and keys stay unique. *)
Theorem walk_only_extends fuel st r st' :
  get_quotes W fuel st = Some (r, st') →
  (∀ p, p ≠ realpath W LOG_FILE → files st' !! p = files st !! p) ∧
  default [] (files st !! realpath W LOG_FILE)
    `prefix_of` default [] (files st' !! realpath W LOG_FILE) ∧
  requests st `prefix_of` requests st' ∧
  (∃ urls entries,
     fetched_by InParseSingleAuthor st' =
       fetched_by InParseSingleAuthor st ++ urls ∧
     AUTHOR_CACHE st' = AUTHOR_CACHE st ++ entries ∧
     entries.*2 = omap (profile_record W) urls) ∧
  (∀ k v, assoc k (AUTHOR_CACHE st) = Some v →
          assoc k (AUTHOR_CACHE st') = Some v) ∧
  (dict_wf (AUTHOR_CACHE st) → dict_wf (AUTHOR_CACHE st')).
Proof.
  intros Hq. pose proof (get_quotes_recorded _ _ _ _ _ Hq) as Hrec.
  apply get_quotes_evolves in Hq as [Hf Hl Hc Hw Hr].
  split_and!; try done.
  intros k v Hk. destruct Hc as [new ->]. by apply assoc_app_Some.
Qed.

(** X6: in a walk that returns, the profile pages requested are as many as
    the entries added to the cache: a quote costs a profile request exactly
    when its author is new. *)
Theorem walk_counts fuel st quotes st' :
  get_quotes W fuel st = Some (Return quotes, st') →
  (length (fetched_by InParseSingleAuthor st') + length (AUTHOR_CACHE st) =
   length (fetched_by InParseSingleAuthor st) + length (AUTHOR_CACHE st'))%nat.
Proof.
  revert fuel st quotes st'.
  apply (get_quotes_Return_rel W
    (λ st st' (quotes : list Quote),
      (length (fetched_by InParseSingleAuthor st') + length (AUTHOR_CACHE st) =
       length (fetched_by InParseSingleAuthor st)
       + length (AUTHOR_CACHE st'))%nat)).
  - intros st. lia.
  - intros st msg url r qs st2 qs' st3 _ Hqs H1.
    apply mapM_quote_counts in Hqs.
    rewrite page_started_profile in Hqs. simpl in Hqs. lia.
Qed.

(** X7: after a walk that returns, the keys of the cache are the keys it
    had before followed by the author names of the returned quotes that
    were not yet keys, each once, in the order in which the quotes first
    show them. *)
Theorem cache_keys_first_seen fuel st quotes st' :
  get_quotes W fuel st = Some (Return quotes, st') →
  dict_keys (AUTHOR_CACHE st') =
  first_seen (dict_keys (AUTHOR_CACHE st)) (author <$> quotes).
Proof. apply get_quotes_keys. Qed.

(** X9: whatever its outcome, a run leaves every file other than its two
    outputs and the log file as it found it; and the log file, when it is
    neither output, is only appended to. *)
Theorem main_touches_only_outputs fuel output_csv_path st r st' :
  main W fuel output_csv_path st = Some (r, st') →
  (∀ p, p ≠ realpath W output_csv_path →
        p ≠ realpath W "author.csv" →
        p ≠ realpath W LOG_FILE →
        files st' !! p = files st !! p) ∧
  (realpath W LOG_FILE ≠ realpath W output_csv_path →
   realpath W LOG_FILE ≠ realpath W "author.csv" →
   default [] (files st !! realpath W LOG_FILE)
     `prefix_of` default [] (files st' !! realpath W LOG_FILE)).
Proof.
  rewrite main_eq. intros Hrun.
  destruct (get_quotes W fuel st) as [[[qs|e1] st1]|] eqn:Hq; [| |done];
    pose proof (get_quotes_evolves _ _ _ _ _ Hq) as [Hf Hl _ _ _].
  - destruct (writable W (realpath W output_csv_path));
      [destruct (writable W (realpath W "author.csv"))|];
      injection Hrun as <- <-; simpl; (split; [intros p Hp1 Hp2 Hp3|intros Hp1 Hp2]);
      rewrite ?lookup_insert_ne by done; auto.
  - injection Hrun as <- <-. split; [intros p _ _ Hp3|intros _ _]; auto.
Qed.

(** X10: the walk has no bound on the number of pages.  On a site where
    every listing page carries a next-page indicator (and no container
    lacks a node or a resolvable author), no number of iterations brings
    [get_quotes] to an end. *)
Theorem walk_has_no_page_cap st :
  (∀ k, 1 ≤ k →
     ∃ r, http_get W (listing_url W k) = Some r ∧
          is_next_page (BeautifulSoup (content r)) = true ∧
          Forall (λ c, has_required c = true ∧ resolvable W c)
            (select (BeautifulSoup (content r)) ".quote")) →
  ∀ fuel, get_quotes W fuel st = None.
Proof.
  intros Hsite fuel. rewrite get_quotes_eq. cbv zeta.
  destruct (Hsite 1) as (r & Hget & Hnext & Hgood); [lia|].
  unfold listing_url in Hget. simpl in Hget. rewrite Hget.
  rewrite get_single_page_quotes_eq.
  match goal with
  | |- context [mapM _ _ ?s] =>
      destruct (mapM_quote_resolvable W _ s Hgood) as (qs & st2 & ->)
  end.
  apply get_quotes_loop_endless; [done|lia|done].
Qed.


(** X12: a walk that has returned can be repeated from the state it left.
    The second walk returns the same quotes, adds nothing to the cache,
    requests no profile page and leaves every file but the log file alone:
    every author is found in the cache. *)
Theorem second_walk_uses_cache fuel st quotes st1 :
  get_quotes W fuel st = Some (Return quotes, st1) →
  ∃ st2,
    get_quotes W fuel st1 = Some (Return quotes, st2) ∧
    AUTHOR_CACHE st2 = AUTHOR_CACHE st1 ∧
    fetched_by InParseSingleAuthor st2 = fetched_by InParseSingleAuthor st1 ∧
    (∀ p, p ≠ realpath W LOG_FILE → files st2 !! p = files st1 !! p).
Proof.
  intros Hq. destruct (get_quotes_rerun _ _ _ _ _ Hq) as (st2 & H2 & Hc & Hp).
  exists st2. split_and!; try done.
  by apply get_quotes_evolves in H2 as [? _ _ _ _].
Qed.

End Further.

(** X13: the quote that [parse_single_quote] returns is read off the
    container alone: its text is that of the first [.text] node, its author
    that of the first [.author] node (the name shown with the quote, not
    the title of the profile page), its tags those of all [.tag] nodes in
    document order, repetitions kept.  Neither the site nor the state has a
    say in it. *)
Theorem quote_read_from_container W1 W2 quote_soup st1 st2 q1 q2 st1' st2' :
  parse_single_quote W1 quote_soup st1 = (Return q1, st1') →
  parse_single_quote W2 quote_soup st2 = (Return q2, st2') →
  q1 = q2 ∧
  text_of <$> select_one quote_soup ".text" = Some (text q1) ∧
  text_of <$> select_one quote_soup ".author" = Some (author q1) ∧
  tags q1 = text_of <$> select quote_soup ".tag".
Proof.
  intros [H1 _]%parse_single_quote_Return [H2 _]%parse_single_quote_Return.
  split; [congruence|]. unfold quote_of in H1.
  destruct (select_one quote_soup ".author") as [a|]; [|done].
  destruct (href_of quote_soup) as [h|]; [|done].
  destruct (select_one quote_soup ".text") as [t|]; [|done].
  by injection H1 as <-.
Qed.

(** * The further properties on the sites of [Demo] *)

Lemma resolve_again_is_noop_witness :
  let st1 :=
    (parse_single_author Demo.site "Alice" "author/Alice" initial_state).2 in
  ∃ st2,
    parse_single_author Demo.site "Alice" "author/Bob" st1 = (Return tt, st2) ∧
    AUTHOR_CACHE st2 = AUTHOR_CACHE st1 ∧
    requests st2 = requests st1 ∧
    log st2 = log st1 ++ ["Getting author " +:+ "Alice" +:+ " from cache"] ∧
    (∀ p, p ≠ realpath Demo.site LOG_FILE → files st2 !! p = files st1 !! p) ∧
    files st2 !! realpath Demo.site LOG_FILE =
      Some (default [] (files st1 !! realpath Demo.site LOG_FILE)
            ++ [[CStr ("[    INFO] Getting author " +:+ "Alice"
                       +:+ " from cache")]]).
Proof.
  intros st1.
  apply (resolve_again_is_noop Demo.site "Alice" "author/Alice" "author/Bob"
           initial_state st1).
  vm_compute. reflexivity.
Defined.

(** The key is the name shown with the quote, the record carries the title
    of the profile page. *)
Lemma miss_stores_page_record_witness :
  ∃ st',
    parse_single_author Demo.retitled "Bob" "author/Bob" initial_state
      = (Return tt, st') ∧
    AUTHOR_CACHE st' =
      AUTHOR_CACHE initial_state
      ++ [("Bob", mkAuthor "Robert" "June 2, 1901" "in Bristol" "B.")] ∧
    assoc "Bob" (AUTHOR_CACHE st')
      = Some (mkAuthor "Robert" "June 2, 1901" "in Bristol" "B.") ∧
    (∀ k, k ≠ "Bob" →
          assoc k (AUTHOR_CACHE st') = assoc k (AUTHOR_CACHE initial_state)) ∧
    requests st' =
      requests initial_state
      ++ [(InParseSingleAuthor, urljoin Demo.retitled BASE_URL "author/Bob")] ∧
    log st' = log initial_state ∧ files st' = files initial_state.
Proof.
  apply (miss_stores_page_record Demo.retitled "Bob" "author/Bob"
           initial_state (mkResponse 200 Demo.robert_page)); reflexivity.
Defined.

Lemma quote_error_precedence_witness :
  parse_single_quote Demo.site Demo.no_author initial_state
    = (Raise (AttributeError "text"), initial_state) ∧
  parse_single_quote Demo.site Demo.no_link initial_state
    = (Raise TypeError, initial_state) ∧
  parse_single_quote Demo.site Demo.no_href initial_state
    = (Raise (KeyError "href"), initial_state).
Proof.
  split_and!.
  - apply (proj1 (quote_error_precedence Demo.site Demo.no_author
                    initial_state)).
    reflexivity.
  - apply (proj1 (proj2 (quote_error_precedence Demo.site Demo.no_link
                           initial_state))).
    + eexists. reflexivity.
    + reflexivity.
  - apply (proj2 (proj2 (quote_error_precedence Demo.site Demo.no_href
                           initial_state))
             "a" [] [] [NavigableString "(about)"]).
    + eexists. reflexivity.
    + reflexivity.
    + reflexivity.
Defined.

Lemma author_cached_despite_missing_text_witness :
  parse_single_quote Demo.torn_quote Demo.no_text initial_state =
    (Raise (AttributeError "text"),
     mkState
       (AUTHOR_CACHE initial_state
        ++ [("Bob", mkAuthor "Bob" "June 2, 1901" "in Bristol" "B.")])
       (requests initial_state
        ++ [(InParseSingleAuthor,
             urljoin Demo.torn_quote BASE_URL "author/Bob")])
       (log initial_state) (files initial_state)).
Proof.
  apply (author_cached_despite_missing_text Demo.torn_quote Demo.no_text
           initial_state
           (Tag "small" ["author"] [] [NavigableString "Bob"])
           "author/Bob" (mkResponse 200 Demo.bob_page)); reflexivity.
Defined.

(** A walk that fails on its second page keeps the two authors of the
    first. *)
Lemma walk_only_extends_witness :
  let st' := Demo.final (get_quotes Demo.torn_quote 5 initial_state) in
  (∀ p, p ≠ realpath Demo.torn_quote LOG_FILE →
        files st' !! p = files initial_state !! p) ∧
  default [] (files initial_state !! realpath Demo.torn_quote LOG_FILE)
    `prefix_of` default [] (files st' !! realpath Demo.torn_quote LOG_FILE) ∧
  requests initial_state `prefix_of` requests st' ∧
  (∃ urls entries,
     fetched_by InParseSingleAuthor st' =
       fetched_by InParseSingleAuthor initial_state ++ urls ∧
     AUTHOR_CACHE st' = AUTHOR_CACHE initial_state ++ entries ∧
     entries.*2 = omap (profile_record Demo.torn_quote) urls) ∧
  (∀ k v, assoc k (AUTHOR_CACHE initial_state) = Some v →
          assoc k (AUTHOR_CACHE st') = Some v) ∧
  (dict_wf (AUTHOR_CACHE initial_state) → dict_wf (AUTHOR_CACHE st')).
Proof.
  apply (walk_only_extends Demo.torn_quote 5 initial_state
           (Raise (AttributeError "text"))).
  vm_compute. reflexivity.
Defined.

Example torn_walk_cache :
  AUTHOR_CACHE (Demo.final (get_quotes Demo.torn_quote 5 initial_state))
  = [ ("Alice", mkAuthor "Alice" "May 1, 1900" "in Wonderland" "A.");
      ("Bob", mkAuthor "Bob" "June 2, 1901" "in Bristol" "B.") ].
Proof. vm_compute. reflexivity. Qed.

Lemma walk_counts_witness :
  (length (fetched_by InParseSingleAuthor (Demo.final Demo.walk))
   + length (AUTHOR_CACHE initial_state) =
   length (fetched_by InParseSingleAuthor initial_state)
   + length (AUTHOR_CACHE (Demo.final Demo.walk)))%nat.
Proof.
  apply (walk_counts Demo.site 5 initial_state (Demo.returned Demo.walk)).
  vm_compute. reflexivity.
Defined.

Lemma cache_keys_first_seen_witness :
  dict_keys (AUTHOR_CACHE (Demo.final Demo.walk)) =
  first_seen (dict_keys (AUTHOR_CACHE initial_state))
    (author <$> Demo.returned Demo.walk).
Proof.
  apply (cache_keys_first_seen Demo.site 5 initial_state).
  vm_compute. reflexivity.
Defined.

Example first_seen_demo :
  first_seen [] ["Alice"; "Bob"; "Alice"] = ["Alice"; "Bob"].
Proof. vm_compute. reflexivity. Qed.

Lemma main_touches_only_outputs_witness :
  (∀ p, p ≠ realpath Demo.site "quotes.csv" →
        p ≠ realpath Demo.site "author.csv" →
        p ≠ realpath Demo.site LOG_FILE →
        files (Demo.final Demo.run) !! p = files initial_state !! p) ∧
  (realpath Demo.site LOG_FILE ≠ realpath Demo.site "quotes.csv" →
   realpath Demo.site LOG_FILE ≠ realpath Demo.site "author.csv" →
   default [] (files initial_state !! realpath Demo.site LOG_FILE)
     `prefix_of`
     default [] (files (Demo.final Demo.run) !! realpath Demo.site LOG_FILE)).
Proof.
  apply (main_touches_only_outputs Demo.site 5 "quotes.csv" initial_state
           (Return tt) (Demo.final Demo.run)).
  vm_compute. reflexivity.
Defined.

Lemma demo_endless :
  ∀ k, 1 ≤ k →
    ∃ r, http_get Demo.endless (listing_url Demo.endless k) = Some r ∧
         is_next_page (BeautifulSoup (content r)) = true ∧
         Forall (λ c, has_required c = true ∧ resolvable Demo.endless c)
           (select (BeautifulSoup (content r)) ".quote").
Proof.
  intros k _. exists (mkResponse 200 [Demo.next_li "page/2/"]).
  split_and!; [reflexivity|reflexivity|].
  assert (select (BeautifulSoup
                    (content (mkResponse 200 [Demo.next_li "page/2/"])))
            ".quote" = []) as -> by reflexivity.
  constructor.
Defined.

Lemma walk_has_no_page_cap_witness :
  get_quotes Demo.endless 1000 initial_state = None.
Proof.
  apply (walk_has_no_page_cap Demo.endless initial_state demo_endless 1000%nat).
Defined.


Lemma second_walk_uses_cache_witness :
  ∃ st2,
    get_quotes Demo.site 5 (Demo.final Demo.walk)
      = Some (Return (Demo.returned Demo.walk), st2) ∧
    AUTHOR_CACHE st2 = AUTHOR_CACHE (Demo.final Demo.walk) ∧
    fetched_by InParseSingleAuthor st2
      = fetched_by InParseSingleAuthor (Demo.final Demo.walk) ∧
    (∀ p, p ≠ realpath Demo.site LOG_FILE →
          files st2 !! p = files (Demo.final Demo.walk) !! p).
Proof.
  apply (second_walk_uses_cache Demo.site 5 initial_state).
  vm_compute. reflexivity.
Defined.

(** Bob's quote reads the same on the site whose profile page is titled
    Robert. *)
Lemma quote_read_from_container_witness :
  mkQuote "Two" "Bob" [] = mkQuote "Two" "Bob" [] ∧
  text_of <$> select_one Demo.q2 ".text"
    = Some (text (mkQuote "Two" "Bob" [])) ∧
  text_of <$> select_one Demo.q2 ".author"
    = Some (author (mkQuote "Two" "Bob" [])) ∧
  tags (mkQuote "Two" "Bob" []) = text_of <$> select Demo.q2 ".tag".
Proof.
  apply (quote_read_from_container Demo.site Demo.retitled Demo.q2
           initial_state initial_state
           (mkQuote "Two" "Bob" []) (mkQuote "Two" "Bob" [])
           (parse_single_quote Demo.site Demo.q2 initial_state).2
           (parse_single_quote Demo.retitled Demo.q2 initial_state).2);
    reflexivity.
Defined.
